(** * CXO connection engine (package [gnet]) and helpers: a shallow embedding

  The development follows the Go sources:
  - [node/gnet/conn.go]: the [Conn] harness ([Close], [closeConnection],
    [triggerDialing], [triggerDialingRead], [triggerDialingWrite],
    [triggerReadWrite], [dial], [read], [writeMsg]);
  - package [node]: [OnDialFilter];
  - package [cxds]: [versionBytes], [encodeUint32], [decodeUint32].

  Go's fixed-width integers are integers of [Z] with the wrap-around written
  out; byte slices are lists of [Byte.byte]; goroutine scheduling and the
  network are an explicit environment (oracles) handed to each function. *)

From Stdlib Require Import ZArith List Bool Lia.
From Stdlib.Strings Require Byte.
From stdpp Require Import gmap strings.
Import ListNotations.

Open Scope Z_scope.

(** ** Machine integers *)

(** Go's [int] is 32 or 64 bits wide, by the host. *)
Inductive host : Set := Host32 | Host64.

Definition int_bits (h : host) : Z :=
  match h with Host32 => 32 | Host64 => 64 end.

(** Unsigned wrap-around at [w] bits: [uintw(x)]. *)
Definition wrap_unsigned (w x : Z) : Z := x mod 2 ^ w.

(** Signed (two's complement) wrap-around at [w] bits. *)
Definition wrap_signed (w x : Z) : Z :=
  (x + 2 ^ (w - 1)) mod 2 ^ w - 2 ^ (w - 1).

Definition uint32 (x : Z) : Z := wrap_unsigned 32 x.
Definition int64 (x : Z) : Z := wrap_signed 64 x.
Definition int (h : host) (x : Z) : Z := wrap_signed (int_bits h) x.

Definition max_int (h : host) : Z := 2 ^ (int_bits h - 1) - 1.
Definition min_int (h : host) : Z := - 2 ^ (int_bits h - 1).
Definition max_int64 : Z := 2 ^ 63 - 1.

(** ** Bytes and [encoding/binary] *)

Abbreviation byte := Byte.byte.

Definition byte_to_Z (b : byte) : Z := Z.of_N (Byte.to_N b).

(** The conversion [byte(x)] of Go: the low eight bits. *)
Definition byte_of_Z (x : Z) : byte :=
  match Byte.of_N (Z.to_N (x mod 256)) with
  | Some b => b
  | None => Byte.x00
  end.

Definition nth_byte (b : list byte) (i : nat) : Z :=
  byte_to_Z (nth i b Byte.x00).

(** [binary.LittleEndian.PutUint32(b, v)] on a fresh four-byte slice. *)
Definition le_put_uint32 (v : Z) : list byte :=
  [ byte_of_Z v; byte_of_Z (Z.shiftr v 8);
    byte_of_Z (Z.shiftr v 16); byte_of_Z (Z.shiftr v 24) ].

(** [binary.LittleEndian.Uint32(b)]. *)
Definition le_uint32 (b : list byte) : Z :=
  Z.lor (Z.lor (Z.lor (nth_byte b 0) (Z.shiftl (nth_byte b 1) 8))
               (Z.shiftl (nth_byte b 2) 16))
        (Z.shiftl (nth_byte b 3) 24).

(** [binary.BigEndian.PutUint32(b, v)] on a fresh four-byte slice. *)
Definition be_put_uint32 (v : Z) : list byte :=
  [ byte_of_Z (Z.shiftr v 24); byte_of_Z (Z.shiftr v 16);
    byte_of_Z (Z.shiftr v 8); byte_of_Z v ].

(** [binary.BigEndian.Uint32(b)]. *)
Definition be_uint32 (b : list byte) : Z :=
  Z.lor (Z.lor (Z.lor (nth_byte b 3) (Z.shiftl (nth_byte b 2) 8))
               (Z.shiftl (nth_byte b 1) 16))
        (Z.shiftl (nth_byte b 0) 24).

(** ** Package [cxds]: the version stamp *)

Module Cxds.

Definition Version : Z := 2.

(** [encodeUint32]: the body writes [uint32(Version)], not [u]. *)
Definition encodeUint32 (u : Z) : list byte :=
  be_put_uint32 (uint32 Version).

Definition versionBytes : list byte := encodeUint32 (uint32 Version).

(** [decodeUint32]: [binary.BigEndian.Uint32] panics on a slice shorter
    than four bytes, which is [None] here. *)
Definition decodeUint32 (ub : list byte) : option Z :=
  if (length ub <? 4)%nat then None else Some (be_uint32 ub).

End Cxds.

(** ** Errors *)

#[local] Set Warnings "-register-all".

(** Go [error] values by their dynamic type, as far as the sources tell them
    apart. The nil error is [None] of [option goerr]. *)
Inductive goerr : Type :=
| ErrEOF                                              (* the value io.EOF *)
| ErrErrno (errno : Z)                                (* syscall.Errno *)
| ErrSyscall (call : string) (inner : option goerr)   (* *os.SyscallError *)
| ErrOp (op : string) (inner : option goerr)          (* *net.OpError *)
| ErrNet (msg : string)                               (* another net.Error *)
| ErrOther (msg : string).                            (* anything else *)

Abbreviation error := (option goerr).

(** The type assertion [err.(net.Error)]: the dynamic types that have the
    methods [Timeout] and [Temporary]. *)
Definition is_net_Error (e : goerr) : bool :=
  match e with
  | ErrErrno _ | ErrOp _ _ | ErrNet _ => true
  | ErrEOF | ErrSyscall _ _ | ErrOther _ => false
  end.

(** ** Package [node]: [OnDialFilter] *)

Section DialFilter.

(** The result of the library method [Temporary()] on a [net.Error]. *)
Variable Temporary : goerr -> bool.

(** The connection argument, which the filter does not look at. *)
Context {C : Type}.

Definition OnDialFilter (c : C) (err : error) : error :=
  match err with
  | None => None
  | Some e =>
      if is_net_Error e then
        if Temporary e then None
        else
          match e with
          | ErrOp _ (Some (ErrSyscall _ (Some (ErrErrno errno)))) =>
              if errno =? 0x68 then err else None
          | _ => None
          end
      else
        match e with
        | ErrEOF => err
        | _ => None
        end
  end.

(** "connection reset by peer" as the filter recognises it. *)
Definition is_conn_reset (e : goerr) : bool :=
  match e with
  | ErrOp _ (Some (ErrSyscall _ (Some (ErrErrno errno)))) => errno =? 0x68
  | _ => false
  end.

Definition is_temporary_net_error (e : goerr) : bool :=
  is_net_Error e && Temporary e.

End DialFilter.

(** ** The connection, the configuration and the pool *)

Inductive ConnState : Set :=
| ConnStateConnected
| ConnStateDialing
| ConnStateClosed.

(** A [net.Conn] is known by a number. *)
Definition stream := nat.

(** The fields of [Conn] that the modelled methods read or write. The
    channel [closed] is [true] once it has been closed; [closeo] is [true]
    once the [sync.Once] has fired. *)
Record Conn : Type := mkConn {
  address : string;
  conn : option stream;
  state : ConnState;
  incoming : bool;
  closeo : bool;
  closed : bool
}.

(** The options of [gnet.Config] that [conn.go] reads. Durations are
    [time.Duration], an [int64] of nanoseconds; [OnCloseConnection] tells
    whether the callback is set. *)
Record Config : Type := mkConfig {
  MaxMessageSize : Z;
  RedialTimeout : Z;
  MaxRedialTimeout : Z;
  DialsLimit : Z;
  OnDial : option (Conn -> error -> error);
  OnCloseConnection : bool
}.

Definition Millisecond : Z := 1000000.

(** The registry [conns] maps an address to (the identity of) its [*Conn];
    [connsl] is the copy-on-write snapshot. *)
Record Pool : Type := mkPool {
  conns : gmap string nat;
  connsl : option (list nat);
  conf : Config
}.

(** What a connection does to the world around it, in the order it happens. *)
Inductive event : Type :=
| EvCloseChan                         (* close(c.closed) *)
| EvNetClose (s : stream)             (* Close() of a net.Conn *)
| EvPoolDelete (a : string)           (* c.p.delete(a) *)
| EvOnCloseConnection (a : string)    (* the OnCloseConnection callback *)
| EvSendDialtr (e : error)            (* c.dialtr <- e *)
| EvSendReadd                         (* c.readd <- struct{}{} *)
| EvRecvReadd                         (* <-c.readd *)
| EvSendWrited                        (* c.writed <- struct{}{} *)
| EvRecvWrited                        (* <-c.writed *)
| EvSendDialrl (s : stream)           (* c.dialrl <- conn *)
| EvSendDialwl (s : stream)           (* c.dialwl <- conn *)
| EvDialing (a : string)              (* c.dialing() *)
| EvSleep (tm : Z).                   (* <-time.After(tm) *)

Record World : Type := mkWorld {
  w_conn : Conn;
  w_pool : Pool;
  w_trace : list event
}.

Definition log (e : event) (w : World) : World :=
  mkWorld (w_conn w) (w_pool w) (w_trace w ++ [e]).

Definition with_conn (f : Conn -> Conn) (w : World) : World :=
  mkWorld (f (w_conn w)) (w_pool w) (w_trace w).

Definition with_pool (f : Pool -> Pool) (w : World) : World :=
  mkWorld (w_conn w) (f (w_pool w)) (w_trace w).

Definition set_state (s : ConnState) (c : Conn) : Conn :=
  mkConn (address c) (conn c) s (incoming c) (closeo c) (closed c).

Definition set_conn (n : option stream) (c : Conn) : Conn :=
  mkConn (address c) n (state c) (incoming c) (closeo c) (closed c).

Definition set_closeo (c : Conn) : Conn :=
  mkConn (address c) (conn c) (state c) (incoming c) true (closed c).

Definition set_closed (c : Conn) : Conn :=
  mkConn (address c) (conn c) (state c) (incoming c) (closeo c) true.

Definition w_conf (w : World) : Config := conf (w_pool w).

(** Modelled from the spec: [Pool.delete], of [pool.go], which is not among
    the sources: "on close it removes itself" from the registry, and "the
    snapshot cache is cleared inside the critical section". *)
Definition pool_delete (a : string) (p : Pool) : Pool :=
  mkPool (delete a (conns p)) None (conf p).

(** *** Accessors *)

Definition State (w : World) : ConnState := state (w_conn w).
Definition Address (w : World) : string := address (w_conn w).
Definition IsIncoming (w : World) : bool := incoming (w_conn w).
Definition isClosed (w : World) : bool := closed (w_conn w).

(** *** [closeConnection] and [Close] *)

Definition closeConnection (w : World) : World :=
  match conn (w_conn w) with
  | Some s => with_conn (set_state ConnStateClosed) (log (EvNetClose s) w)
  | None => w
  end.

(** The function handed to [c.closeo.Do]. *)
Definition close_once (w : World) : World :=
  let w := log EvCloseChan (with_conn set_closed w) in
  let w := closeConnection w in
  let w := log (EvPoolDelete (Address w)) (with_pool (pool_delete (Address w)) w) in
  if OnCloseConnection (w_conf w) then log (EvOnCloseConnection (Address w)) w
  else w.

Definition Close (w : World) : World :=
  if closeo (w_conn w) then w
  else close_once (with_conn set_closeo w).

(** *** [triggerDialing], [updateConnection], [triggerReadWrite] *)

(** The case a [select] over [c.dialtr <- err] and [<-c.closed] takes. The
    case on [c.closed] exists only once that channel is closed. *)
Inductive trigger_case : Set := TriggerSent | TriggerClosed.

Definition triggerDialing (k : trigger_case) (err : error) (w : World) : World :=
  let w := with_conn (set_state ConnStateDialing) w in
  match k with
  | TriggerSent => log (EvSendDialtr err) w
  | TriggerClosed => w
  end.

Definition updateConnection (s : stream) (w : World) : World :=
  with_conn (set_state ConnStateConnected) (with_conn (set_conn (Some s)) w).

(** The cases of the two nested selects of [triggerReadWrite]. *)
Inductive handoff_case : Set :=
| HandReadThenWrite
| HandReadThenClosed
| HandWriteThenRead
| HandWriteThenClosed
| HandClosed.

Definition triggerReadWrite (k : handoff_case) (s : stream) (w : World) : World :=
  let w := updateConnection s w in
  match k with
  | HandReadThenWrite => log (EvSendDialwl s) (log (EvSendDialrl s) w)
  | HandReadThenClosed => log (EvSendDialrl s) w
  | HandWriteThenRead => log (EvSendDialrl s) (log (EvSendDialwl s) w)
  | HandWriteThenClosed => log (EvSendDialwl s) w
  | HandClosed => w
  end.

(** *** [createConnection] and [acceptConnection] *)

(** [ptr] is the identity of the [Conn] that [new(Conn)] allocates; the
    zero value of [ConnState] is [ConnStateConnected]. *)
Definition createConnection (ptr : nat) (k : trigger_case) (a : string)
    (p : Pool) : World :=
  let p := mkPool (<[a := ptr]> (conns p)) None (conf p) in
  let cn := mkConn a None ConnStateConnected false false false in
  triggerDialing k None (mkWorld cn p []).

Definition acceptConnection (ptr : nat) (k : handoff_case) (remote : string)
    (s : stream) (p : Pool) : option World :=
  match conns p !! remote with
  | Some _ => None
  | None =>
      let p := mkPool (<[remote := ptr]> (conns p)) None (conf p) in
      let cn := mkConn remote None ConnStateConnected true false false in
      Some (triggerReadWrite k s (mkWorld cn p []))
  end.

(** *** [triggerDialingRead] and [triggerDialingWrite] *)

(** The scheduling a recovery meets: whether the other side's one-shot is
    already there at the first, non-blocking select, and the case the second
    select takes. *)
Inductive redial_case : Set :=
| RedialSendOwn (k : trigger_case)
| RedialRecvOther
| RedialClosed.

Record redial_env : Set := mkRedialEnv {
  other_signalled : bool;
  second_select : redial_case
}.

Definition triggerDialingRead (env : redial_env) (err : error) (s : stream)
    (w : World) : World :=
  let w := log (EvNetClose s) w in
  if incoming (w_conn w) then Close w
  else if other_signalled env then log EvRecvWrited w
  else
    match second_select env with
    | RedialSendOwn k => triggerDialing k err (log EvSendReadd w)
    | RedialRecvOther => log EvRecvWrited w
    | RedialClosed => w
    end.

Definition triggerDialingWrite (env : redial_env) (err : error) (s : stream)
    (w : World) : World :=
  let w := log (EvNetClose s) w in
  if incoming (w_conn w) then Close w
  else if other_signalled env then log EvRecvReadd w
  else
    match second_select env with
    | RedialSendOwn k => triggerDialing k err (log EvSendWrited w)
    | RedialRecvOther => log EvRecvReadd w
    | RedialClosed => w
    end.

(** ** The dial activity *)

(** The block of [dial] that grows the redial timeout after a failed
    dialing; [time.Duration] arithmetic is [int64]. *)
Definition redial_backoff (cf : Config) (tm : Z) : Z :=
  if MaxRedialTimeout cf >? tm then
    let tm := if tm =? 0 then int64 (100 * Millisecond) else int64 (tm * 2) in
    if tm >? MaxRedialTimeout cf then MaxRedialTimeout cf else tm
  else tm.

(** What the waiting after a failed dialing observes: with a timeout, the
    timer or [c.closed]; without one, the answer of [isClosed()]. *)
Inductive wait_case : Set := WaitElapsed | WaitClosed.

(** What one call of [c.dialing()] meets. *)
Inductive attempt : Type :=
| AttemptFail (e : goerr) (k : wait_case)
| AttemptOk (s : stream) (k : handoff_case).

Inductive dial_exit : Type :=
| ExitLimit                 (* "dials limit exceeded" *)
| ExitOnDial (e : goerr)    (* terminated by the OnDial callback *)
| ExitClosed.               (* c.closed observed *)

(** Where the dial activity stands when the environment given to it is used
    up, or how it returned. *)
Inductive dial_status : Type :=
| DialReturned (r : dial_exit)
| DialConnected (diallm : Z)              (* continue TriggerLoop *)
| DialDialing (diallm tm : Z) (err : error) (* about to call c.dialing() *)
| DialParked (diallm : Z).                (* waiting on c.dialtr *)

Section Dial.

Variable h : host.

(** The "perform dialing callback" step: [inr e] when the callback
    rejects, else the value [err] has afterwards. *)
Definition on_dial (w : World) (err : error) : error + goerr :=
  match OnDial (w_conf w) with
  | Some callback =>
      match callback (w_conn w) err with
      | Some e => inr e
      | None => inl None
      end
  | None => inl err
  end.

Fixpoint DialLoop (atts : list attempt) (diallm tm : Z) (err : error)
    (w : World) {struct atts} : dial_status * World :=
  if diallm =? 0 then (DialReturned ExitLimit, w)
  else
    let diallm := int h (diallm - 1) in
    match on_dial w err with
    | inr e => (DialReturned (ExitOnDial e), w)
    | inl err =>
        match atts with
        | [] => (DialDialing diallm tm err, w)
        | AttemptFail e k :: rest =>
            let w := log (EvDialing (Address w)) w in
            let tm := redial_backoff (w_conf w) tm in
            if tm >? 0 then
              match k with
              | WaitElapsed => DialLoop rest diallm tm (Some e) (log (EvSleep tm) w)
              | WaitClosed => (DialReturned ExitClosed, w)
              end
            else
              match k with
              | WaitClosed => (DialReturned ExitClosed, w)
              | WaitElapsed => DialLoop rest diallm tm (Some e) w
              end
        | AttemptOk s k :: _ =>
            let w := log (EvDialing (Address w)) w in
            (DialConnected diallm, triggerReadWrite k s w)
        end
    end.

(** One turn of [TriggerLoop]: a trigger received from [c.dialtr], with
    the dialings that follow it, or [c.closed]. *)
Inductive round : Type :=
| RoundTrigger (err : error) (atts : list attempt)
| RoundClosed.

Fixpoint TriggerLoop (rounds : list round) (diallm : Z) (w : World)
    : dial_status * World :=
  match rounds with
  | [] => (DialParked diallm, w)
  | RoundClosed :: _ => (DialReturned ExitClosed, w)
  | RoundTrigger err atts :: rest =>
      let tm := RedialTimeout (w_conf w) in
      match DialLoop atts diallm tm err w with
      | (DialConnected diallm, w) => TriggerLoop rest diallm w
      | other => other
      end
  end.

(** [dial]: the deferred [c.Close()] runs when the function returns. *)
Definition dial (rounds : list round) (diallm : Z) (w : World)
    : dial_status * World :=
  let diallm := if diallm =? 0 then int h (diallm - 1) else diallm in
  match TriggerLoop rounds diallm w with
  | (DialReturned r, w) => (DialReturned r, Close w)
  | other => other
  end.

End Dial.

(** The calls of [c.dialing()] recorded in a trace. *)
Definition is_dialing (e : event) : bool :=
  match e with EvDialing _ => true | _ => false end.

Definition count (f : event -> bool) (t : list event) : nat :=
  length (List.filter f t).

Definition dial_attempts (w : World) : nat := count is_dialing (w_trace w).

(** ** The framed codec *)

(** A writer: what has been written, and what the coming calls of [Write]
    will meet (nothing scheduled means success). A failing [Write] has moved
    the first [n] bytes. *)
Inductive write_case : Type :=
| WriteOk
| WriteErr (n : nat) (e : goerr).

Record writer : Type := mkWriter {
  w_out : list byte;
  w_script : list write_case
}.

Definition Write (w : writer) (p : list byte) : writer * error :=
  match w_script w with
  | [] => (mkWriter (w_out w ++ p) [], None)
  | WriteOk :: rest => (mkWriter (w_out w ++ p) rest, None)
  | WriteErr n e :: rest => (mkWriter (w_out w ++ firstn n p) rest, Some e)
  end.

(** [len(body)], an [int]. *)
Definition len (body : list byte) : Z := Z.of_nat (length body).

(** [writeMsg]: the results are [terminate], [err] and the writer after
    the call; [is_closed] is the answer [c.isClosed()] would give. *)
Definition writeMsg (cf : Config) (is_closed : bool) (w : writer)
    (body : list byte) : bool * error * writer :=
  if (MaxMessageSize cf >? 0) && (len body >? MaxMessageSize cf) then
    (true, None, w)
  else
    let head := le_put_uint32 (uint32 (len body)) in
    match Write w head with
    | (w, Some e) => (is_closed, Some e, w)
    | (w, None) =>
        match Write w body with
        | (w, Some e) => (is_closed, Some e, w)
        | (w, None) => (false, None, w)
        end
    end.

(** A reader: the bytes still to come, and the error met once they are used
    up ([io.EOF] for an orderly close, else a timeout or a reset). *)
Record reader : Type := mkReader {
  pending : list byte;
  fault : goerr
}.

Definition ErrUnexpectedEOF : goerr := ErrOther "unexpected EOF".

(** [io.ReadFull(r, buf)] with [len(buf) = n]. *)
Definition ReadFull (r : reader) (n : nat) : reader * (list byte + goerr) :=
  if (n <=? length (pending r))%nat then
    (mkReader (skipn n (pending r)) (fault r), inl (firstn n (pending r)))
  else
    (mkReader [] (fault r),
     inr (match pending r, fault r with
          | _ :: _, ErrEOF => ErrUnexpectedEOF
          | _, e => e
          end)).

(** One turn of [ReadLoop], up to the enqueueing of the body. *)
Inductive frame_step : Type :=
| StepFrame (body : list byte) (r : reader)
| StepReadError (e : goerr)
| StepFatal (l : Z).

Definition read_frame (h : host) (cf : Config) (r : reader) : frame_step :=
  match ReadFull r 4 with
  | (_, inr e) => StepReadError e
  | (r, inl head) =>
      let ln := le_uint32 head in
      let l := int h ln in
      if l <? 0 then StepFatal l
      else if (MaxMessageSize cf >? 0) && (l >? MaxMessageSize cf) then StepFatal l
      else
        match ReadFull r (Z.to_nat l) with
        | (_, inr e) => StepReadError e
        | (r, inl body) => StepFrame body r
        end
  end.

(** What the read activity observes around one frame: the answer of
    [isClosed()] after a failed read, and the case the select over
    [c.readq <- body] and [<-c.closed] takes. *)
Inductive enqueue_case : Set := EnqueueSent | EnqueueClosed.

Record frame_obs : Set := mkFrameObs {
  closed_on_error : bool;
  on_enqueue : enqueue_case
}.

Inductive read_exit : Type :=
| ReadFatal (l : Z)          (* return: negative or oversize length *)
| ReadClosed                 (* return: the connection is closing *)
| ReadRedial (e : goerr).    (* triggerDialingRead(err, conn); continue DialLoop *)

(** [ReadLoop] over one stream: the bodies sent to [c.readq] and how the
    loop was left. Every turn that goes on has used four bytes at least, so
    [fuel] above the number of pending bytes is never used up. *)
Fixpoint ReadLoop (fuel : nat) (h : host) (cf : Config) (obs : nat -> frame_obs)
    (i : nat) (r : reader) : option (list (list byte) * read_exit) :=
  match fuel with
  | O => None
  | S fuel =>
      match read_frame h cf r with
      | StepReadError e =>
          Some ([], if closed_on_error (obs i) then ReadClosed else ReadRedial e)
      | StepFatal l => Some ([], ReadFatal l)
      | StepFrame body r =>
          match on_enqueue (obs i) with
          | EnqueueClosed => Some ([], ReadClosed)
          | EnqueueSent =>
              match ReadLoop fuel h cf obs (S i) r with
              | Some (q, x) => Some (body :: q, x)
              | None => None
              end
          end
      end
  end.

Definition read_stream (h : host) (cf : Config) (obs : nat -> frame_obs)
    (r : reader) : option (list (list byte) * read_exit) :=
  ReadLoop (S (length (pending r))) h cf obs 0 r.

(** One turn of the [DialLoop] of [read]: a stream from [c.dialrl], with all
    that the reading of it meets, or [c.closed]. *)
Inductive read_round : Type :=
| ReadStream (s : stream) (r : reader) (obs : nat -> frame_obs) (env : redial_env)
| ReadSeesClosed.

Inductive read_status : Type :=
| ReadReturned               (* the function returned; c.Close() has run *)
| ReadParked.                (* waiting on c.dialrl *)

(** [read]: the result holds what went to [c.readq]. *)
Fixpoint read (h : host) (rounds : list read_round) (w : World)
    : option (read_status * list (list byte) * World) :=
  match rounds with
  | [] => Some (ReadParked, [], w)
  | ReadSeesClosed :: _ => Some (ReadReturned, [], Close w)
  | ReadStream s r obs env :: rest =>
      match read_stream h (w_conf w) obs r with
      | None => None
      | Some (q, ReadFatal _) | Some (q, ReadClosed) =>
          Some (ReadReturned, q, Close w)
      | Some (q, ReadRedial e) =>
          match read h rest (triggerDialingRead env (Some e) s w) with
          | Some (st, q', w) => Some (st, q ++ q', w)
          | None => None
          end
      end
  end.

(** ** Notions the properties are stated with, and sample inputs *)

(** The filter told by cases, in the order of the specification: a
    temporary network error gives nil; otherwise end-of-stream and
    "connection reset by peer" give the error back; all the rest gives
    nil. *)
Definition dial_filter_by_cases (Temporary : goerr -> bool) (err : error)
    : error :=
  match err with
  | None => None
  | Some e =>
      if is_temporary_net_error Temporary e then None
      else if match e with ErrEOF => true | _ => false end then Some e
      else if is_conn_reset e then Some e
      else None
  end.

(** The size test shared by [writeMsg] and [read]. *)
Definition oversize (cf : Config) (l : Z) : bool :=
  (MaxMessageSize cf >? 0) && (l >? MaxMessageSize cf).

(** A configuration given by its [MaxMessageSize]. *)
Definition conf_max (m : Z) : Config := mkConfig m 0 0 0 None false.

(** A writer that has written one byte and whose next [Write] fails. *)
Definition failing_writer : writer :=
  mkWriter [Byte.x07] [WriteErr 1 ErrEOF; WriteOk].

(** A body of [2^32] bytes, which a host with a 64-bit [int] can hold. *)
Definition body_4GiB : list byte := repeat Byte.x00 (Z.to_nat (2 ^ 32)).

(** An incoming connection with its stream, registered in the pool. *)
Definition peer_world (cf : Config) : World :=
  mkWorld (mkConn "10.0.0.7:4242" (Some 1%nat) ConnStateConnected true false false)
          (mkPool {[ "10.0.0.7:4242" := 0%nat ]} None cf) [].

(** Recognisers of the events of [Close]. *)
Definition is_close_chan (e : event) : bool :=
  match e with EvCloseChan => true | _ => false end.

Definition is_pool_delete (a : string) (e : event) : bool :=
  match e with EvPoolDelete b => bool_decide (a = b) | _ => false end.

Definition is_on_close (e : event) : bool :=
  match e with EvOnCloseConnection _ => true | _ => false end.

(** The events on the channels that drive a redial. *)
Definition is_redial_event (e : event) : bool :=
  match e with
  | EvSendDialtr _ | EvSendReadd | EvRecvReadd | EvSendWrited | EvRecvWrited
  | EvSendDialrl _ | EvSendDialwl _ | EvDialing _ | EvSleep _ => true
  | EvCloseChan | EvNetClose _ | EvPoolDelete _ | EvOnCloseConnection _ => false
  end.

(** What the function handed to the [sync.Once] adds to the trace. *)
Definition close_events (w : World) : list event :=
  EvCloseChan
  :: match conn (w_conn w) with Some s => [EvNetClose s] | None => [] end
  ++ EvPoolDelete (Address w)
  :: (if OnCloseConnection (w_conf w) then [EvOnCloseConnection (Address w)]
      else []).

(** A configuration given by its [DialsLimit], with [OnCloseConnection]
    set and no redial timeouts. *)
Definition conf_dials (n : Z) : Config := mkConfig 0 0 0 n None true.

(** "connection refused" as [net.Dial] reports it. *)
Definition refused : goerr :=
  ErrOp "dial" (Some (ErrSyscall "connect" (Some (ErrErrno 111)))).

(** An outgoing connection as [createConnection] leaves it, the dial
    activity having taken the first trigger. *)
Definition outgoing_world (cf : Config) : World :=
  createConnection 0 TriggerSent "127.0.0.1:9" (mkPool ∅ None cf).

(** The same with [DialsLimit = 1]. *)
Definition dialing_world : World := outgoing_world (conf_dials 1).

Definition Second : Z := 1000 * Millisecond.

(** A configuration given by its two redial timeouts. *)
Definition conf_redial (tm max : Z) : Config := mkConfig 0 tm max 0 None false.

(** The [OnDial] callback, if there is one, never rejects. *)
Definition accepting (cf : Config) : Prop :=
  match OnDial cf with
  | Some callback => forall c err, callback c err = None
  | None => True
  end.

(** Dialings that all fail, with nothing closing the connection meanwhile. *)
Definition fails (errs : list goerr) : list attempt :=
  map (fun e => AttemptFail e WaitElapsed) errs.

(** As many refused dialings in a row as there are values of the host's
    [int] other than zero. *)
Definition refusals (h : host) : list goerr :=
  repeat refused (Z.to_nat (2 ^ int_bits h - 1)).

(** The dials-limit counter a status carries. *)
Definition counter (st : dial_status) : Z :=
  match st with
  | DialReturned _ => 0
  | DialConnected d | DialDialing d _ _ | DialParked d => d
  end.

(** The world after a failed dialing and the waiting that follows it. *)
Definition after_failure (tm : Z) (w : World) : World :=
  let w := log (EvDialing (Address w)) w in
  let tm := redial_backoff (w_conf w) tm in
  if tm >? 0 then log (EvSleep tm) w else w.

(** ** Package [cxds]: reference counts and key increments *)

(** [getRefsCount]: [binary.BigEndian.Uint32(val)], which panics ([None])
    on a value shorter than four bytes. *)
Definition getRefsCount (val : list byte) : option Z :=
  if (length val <? 4)%nat then None else Some (be_uint32 val).

(** [setRefsCount]: [binary.BigEndian.PutUint32(val, rc)] overwrites the
    first four bytes of [val] in place; it panics ([None]) on a value
    shorter than four bytes. *)
Definition setRefsCount (val : list byte) (rc : Z) : option (list byte) :=
  if (length val <? 4)%nat then None
  else Some (be_put_uint32 rc ++ drop 4 val).

(** The loop of [incSlice], about to look at index [i - 1]. *)
Fixpoint incSlice_from (i : nat) (b : list byte) : list byte :=
  match i with
  | O => b
  | S j =>
      match b !! j with
      | Some x =>
          if Byte.eqb x Byte.xff then incSlice_from j (<[j := Byte.x00]> b)
          else <[j := byte_of_Z (byte_to_Z x + 1)]> b
      | None => b
      end
  end.

(** [incSlice]: the slice is changed in place; the result is the slice
    after the call. *)
Definition incSlice (b : list byte) : list byte := incSlice_from (length b) b.

(** The number a slice spells, most significant byte first. *)
Definition be_value (b : list byte) : Z :=
  fold_left (fun acc x => acc * 256 + byte_to_Z x) b 0.

(** ** The write activity *)

(** [connectionWriter]: the writer is buffered ([bw != nil]) when the
    option [WriteBufferSize] of the configuration is positive. *)
Definition connectionWriter (WriteBufferSize : Z) : bool := WriteBufferSize >? 0.

(** What a run of calls of [writeMsg] comes to. *)
Inductive write_step : Type :=
| WriteDone                  (* every body written *)
| WriteTerminate             (* terminate = true *)
| WriteFault (e : goerr).    (* err != nil, terminate = false *)

(** The bodies dequeued one after the other, each handed to [writeMsg],
    until one of them terminates or fails. *)
Fixpoint write_bodies (cf : Config) (is_closed : bool) (w : writer)
    (bodies : list (list byte)) : write_step * writer :=
  match bodies with
  | [] => (WriteDone, w)
  | body :: rest =>
      match writeMsg cf is_closed w body with
      | (true, _, w) => (WriteTerminate, w)
      | (false, Some e, w) => (WriteFault e, w)
      | (false, None, w) => write_bodies cf is_closed w rest
      end
  end.

(** One turn of [WriteLoop]: what the blocking select receives. With a
    body from [c.writeq] come the bodies the non-blocking select finds
    after it (until its [default]), the result of [bw.Flush()] should the
    writer be buffered, and the answer [c.isClosed()] gives if asked. *)
Inductive write_turn : Type :=
| TurnSend (is_closed : bool) (first : list byte) (more : list (list byte))
    (flush : error)
| TurnReadd
| TurnClosed.

Inductive write_exit : Type :=
| WriteReturned              (* return *)
| WriteRedial (e : goerr)    (* triggerDialingWrite(err, conn); continue DialLoop *)
| WriteDelegated             (* <-c.readd; continue DialLoop *)
| WriteWaiting.              (* blocked in the select of WriteLoop *)

(** What of the output of the writer [w] of a stream has reached the stream
    for certain. Without a write buffer [w] is the stream, and all its
    output is there. With one, [w] is the [bufio.Writer]: what [writeMsg]
    hands it waits in the buffer for [bw.Flush()] (the buffer empties itself
    earlier only when it fills, which is not counted on), so that only
    [flushed], the output as of the last flush that succeeded, is there. *)
Definition on_stream (buffered : bool) (flushed : list byte) (w : writer)
    : list byte :=
  if buffered then flushed else w_out w.

(** [WriteLoop]: how the loop is left, the writer [w] as it is then, and
    what of its output has reached the stream for certain. [bw.Flush()] is
    called in the [default] branch only: the ways out before it ([terminate],
    a failed write, [c.readd], [c.closed]) leave what a buffered writer holds
    where it is. *)
Fixpoint WriteLoop (cf : Config) (buffered : bool) (turns : list write_turn)
    (w : writer) (flushed : list byte) : write_exit * writer * list byte :=
  match turns with
  | [] => (WriteWaiting, w, on_stream buffered flushed w)
  | TurnReadd :: _ => (WriteDelegated, w, on_stream buffered flushed w)
  | TurnClosed :: _ => (WriteReturned, w, on_stream buffered flushed w)
  | TurnSend is_closed first more flush :: rest =>
      match write_bodies cf is_closed w (first :: more) with
      | (WriteTerminate, w) => (WriteReturned, w, on_stream buffered flushed w)
      | (WriteFault e, w) => (WriteRedial e, w, on_stream buffered flushed w)
      | (WriteDone, w) =>
          if buffered then
            match flush with
            | Some e =>
                if is_closed then (WriteReturned, w, flushed)
                else (WriteRedial e, w, flushed)
            | None => WriteLoop cf buffered rest w (w_out w)
            end
          else WriteLoop cf buffered rest w (w_out w)
      end
  end.

(** One turn of the [DialLoop] of [write]: a stream from [c.dialwl] with
    the writer made for it and all that the writing meets, or [c.closed]. *)
Inductive write_round : Type :=
| WriteStream (s : stream) (w : writer) (turns : list write_turn)
    (env : redial_env)
| WriteSeesClosed.

Inductive write_status : Type :=
| WriteExited                (* the function returned; c.Close() has run *)
| WriteParked                (* waiting on c.dialwl *)
| WriteBlocked.              (* waiting in WriteLoop *)

(** [write]: the result holds the writers of the streams written to, in
    order, each as [writeMsg] left it. A writer made by [connectionWriter]
    starts with nothing in its buffer: what it holds at the start counts as
    flushed. *)
Fixpoint write (WriteBufferSize : Z) (rounds : list write_round) (w : World)
    : write_status * list writer * World :=
  match rounds with
  | [] => (WriteParked, [], w)
  | WriteSeesClosed :: _ => (WriteExited, [], Close w)
  | WriteStream s wr turns env :: rest =>
      match WriteLoop (w_conf w) (connectionWriter WriteBufferSize) turns wr
              (w_out wr) with
      | (WriteReturned, wr, _) => (WriteExited, [wr], Close w)
      | (WriteRedial e, wr, _) =>
          match write WriteBufferSize rest
                  (triggerDialingWrite env (Some e) s w) with
          | (st, outs, w) => (st, wr :: outs, w)
          end
      | (WriteDelegated, wr, _) =>
          match write WriteBufferSize rest (log EvRecvReadd w) with
          | (st, outs, w) => (st, wr :: outs, w)
          end
      | (WriteWaiting, wr, _) => (WriteBlocked, [wr], w)
      end
  end.

(** The bytes of the frame of a body, and of the frames of bodies. *)
Definition frame_of (body : list byte) : list byte :=
  le_put_uint32 (uint32 (len body)) ++ body.

Definition frames_of (bodies : list (list byte)) : list byte :=
  concat (map frame_of bodies).

(** All that the turns of a [WriteLoop] dequeue, in order. *)
Fixpoint dequeued (turns : list write_turn) : list (list byte) :=
  match turns with
  | [] => []
  | TurnSend _ first more _ :: rest => (first :: more) ++ dequeued rest
  | _ :: rest => dequeued rest
  end.

(** Turns that only dequeue bodies, with every flush succeeding. *)
Definition sending (t : write_turn) : Prop :=
  match t with
  | TurnSend _ _ _ None => True
  | _ => False
  end.

(** The error [io.ReadFull] gives for a stream that ends: [io.EOF] only if
    it has read nothing. *)
Definition short_read (got : list byte) (flt : goerr) : goerr :=
  match got, flt with
  | _ :: _, ErrEOF => ErrUnexpectedEOF
  | _, e => e
  end.

(** A body [writeMsg] and [read] of host [h] both take whole. *)
Definition fits (h : host) (cf : Config) (body : list byte) : Prop :=
  oversize cf (len body) = false /\ len body < 2 ^ 32 /\ len body <= max_int h.

(** ** What the activities may do to a connection *)

(** The changes of the world the methods of [Conn] are made of. *)
Inductive op_step : World -> World -> Prop :=
| step_log e w : op_step w (log e w)
| step_state s w : op_step w (with_conn (set_state s) w)
| step_conn n w : op_step w (with_conn (set_conn n) w)
| step_Close w : op_step w (Close w).

Definition evolves : World -> World -> Prop := rtc op_step.

(** What no method changes or undoes: the address, the direction and the
    configuration stay; a closed channel [closed] stays closed; the once and
    the channel keep agreeing; the registry entries of other addresses are
    not touched; the trace only grows. *)
Definition kept (w w' : World) : Prop :=
  Address w' = Address w
  /\ IsIncoming w' = IsIncoming w
  /\ w_conf w' = w_conf w
  /\ (isClosed w = true -> isClosed w' = true)
  /\ (closeo (w_conn w) = closed (w_conn w) ->
      closeo (w_conn w') = closed (w_conn w'))
  /\ (forall a, a <> Address w ->
                conns (w_pool w') !! a = conns (w_pool w) !! a)
  /\ (exists evs, w_trace w' = w_trace w ++ evs).

(** The connection [ptr] is in the registry, under its address, exactly
    as long as it has not been closed. *)
Definition registered (ptr : nat) (w : World) : Prop :=
  closeo (w_conn w) = closed (w_conn w)
  /\ conns (w_pool w) !! Address w
     = if closed (w_conn w) then None else Some ptr.

(** The sends on [c.dialtr] recorded in a trace. *)
Definition is_dial_trigger (e : event) : bool :=
  match e with EvSendDialtr _ => true | _ => false end.


(** The timeouts slept, as a trace records them. *)
Definition sleeps (t : list event) : list Z :=
  omap (fun e => match e with EvSleep tm => Some tm | _ => None end) t.

(** The timeouts after [k] failed dialings in a row, from the timeout [tm]. *)
Fixpoint backoffs (cf : Config) (tm : Z) (k : nat) : list Z :=
  match k with
  | O => []
  | S k => redial_backoff cf tm :: backoffs cf (redial_backoff cf tm) k
  end.

(** ** Package [cxoutils]: [RemoveRootObjects] *)

Definition uint64 (x : Z) : Z := wrap_unsigned 64 x.

(** The errors of package [data] the function tells apart. *)
Inductive dberr : Type :=
| ErrNotFound                 (* data.ErrNotFound *)
| ErrDB (msg : string).       (* any other error *)

(** How a loop body is left: on to the next turn, the variable [err]
    holding a value, or out of the function with an error. *)
Inductive loop_exit : Type :=
| Continue (err : option dberr)
| Return (e : dberr).

(** How the loop counting [goDown] down is left. *)
Inductive down_exit : Type :=
| DownDone                    (* goDown == 0 *)
| DownNotFound                (* continue HeadLoop *)
| DownFailed (e : dberr).     (* return *)

Section Cxoutils.

(** The container: its state and the methods [RemoveRootObjects] calls.
    [Feeds], [Heads] and [LastRootSeq] read the state; [DelRoot] changes
    it. *)
Context {St PubKey : Type}.
Variable Feeds : St -> list PubKey.
Variable Heads : St -> PubKey -> list Z + dberr.
Variable LastRootSeq : St -> PubKey -> Z -> Z + dberr.
Variable DelRoot : St -> PubKey -> Z -> Z -> St * option dberr.

(** [for ; goDown > 0; goDown--], from [goDown]. *)
Fixpoint del_down (goDown : nat) (c : St) (pk : PubKey) (nonce : Z)
    : St * down_exit :=
  match goDown with
  | O => (c, DownDone)
  | S n =>
      match DelRoot c pk nonce (Z.of_nat (S n)) with
      | (c, Some ErrNotFound) => (c, DownNotFound)
      | (c, Some e) => (c, DownFailed e)
      | (c, None) => del_down n c pk nonce
      end
  end.

(** The body of [HeadLoop] for one head. *)
Definition head_turn (keepLast : Z) (c : St) (pk : PubKey) (nonce : Z)
    : St * loop_exit :=
  match LastRootSeq c pk nonce with
  | inr e => (c, Continue (Some e))
  | inl seq =>
      if seq <=? uint64 keepLast then (c, Continue None)
      else
        let goDown := uint64 (seq - uint64 keepLast) in
        match del_down (Z.to_nat goDown) c pk nonce with
        | (c, DownNotFound) => (c, Continue (Some ErrNotFound))
        | (c, DownFailed e) => (c, Return e)
        | (c, DownDone) =>
            match DelRoot c pk nonce 0 with
            | (c, Some ErrNotFound) => (c, Continue (Some ErrNotFound))
            | (c, Some e) => (c, Return e)
            | (c, None) => (c, Continue None)
            end
        end
  end.

Fixpoint HeadLoop (keepLast : Z) (heads : list Z) (c : St) (pk : PubKey)
    (err : option dberr) : St * loop_exit :=
  match heads with
  | [] => (c, Continue err)
  | nonce :: rest =>
      match head_turn keepLast c pk nonce with
      | (c, Continue err) => HeadLoop keepLast rest c pk err
      | (c, Return e) => (c, Return e)
      end
  end.

(** The loop over the feeds. *)
Fixpoint FeedLoop (keepLast : Z) (feeds : list PubKey) (c : St)
    (err : option dberr) : St * loop_exit :=
  match feeds with
  | [] => (c, Continue err)
  | pk :: rest =>
      match Heads c pk with
      | inr e => (c, Return e)
      | inl heads =>
          match HeadLoop keepLast heads c pk None with
          | (c, Continue err) => FeedLoop keepLast rest c err
          | (c, Return e) => (c, Return e)
          end
      end
  end.

(** [RemoveRootObjects]: the container after the call and the error
    returned, which is the value the variable [err] has at the end. *)
Definition RemoveRootObjects (c : St) (keepLast : Z) : St * option dberr :=
  match FeedLoop keepLast (Feeds c) c None with
  | (c, Continue err) => (c, err)
  | (c, Return e) => (c, Some e)
  end.

(** The container after [DelRoot] of the roots [m], [m - 1], ..., [0] of a
    head, in this order. *)
Fixpoint deleted_down (m : nat) (c : St) (pk : PubKey) (nonce : Z) : St :=
  match m with
  | O => fst (DelRoot c pk nonce 0)
  | S n => deleted_down n (fst (DelRoot c pk nonce (Z.of_nat (S n)))) pk nonce
  end.

(** The calls of [DelRoot] this makes, for the roots [m], [m - 1], ..., [0]
    of a head, each on the container the one before it left, all return
    nil. *)
Fixpoint deletions_succeed (m : nat) (c : St) (pk : PubKey) (nonce : Z)
    : Prop :=
  match m with
  | O => snd (DelRoot c pk nonce 0) = None
  | S n =>
      snd (DelRoot c pk nonce (Z.of_nat (S n))) = None
      /\ deletions_succeed n (fst (DelRoot c pk nonce (Z.of_nat (S n)))) pk nonce
  end.

End Cxoutils.

(** A container to try [RemoveRootObjects] on: one feed with the heads 0
    and 1; the state lists the seq numbers of the roots of head 0, head 1
    has no root; deleting never fails. *)
Definition toy_Feeds (c : list Z) : list unit := [tt].

Definition toy_Heads (c : list Z) (pk : unit) : list Z + dberr := inl [0; 1].

Definition toy_LastRootSeq (c : list Z) (pk : unit) (nonce : Z) : Z + dberr :=
  if nonce =? 0 then
    match c with
    | [] => inr ErrNotFound
    | s :: rest => inl (fold_left Z.max rest s)
    end
  else inr ErrNotFound.

Definition toy_DelRoot (c : list Z) (pk : unit) (nonce seq : Z)
    : list Z * option dberr :=
  (if nonce =? 0 then List.filter (fun s => negb (s =? seq)) c else c, None).

(** Another one: one feed with the head 0 alone; the state lists the seq
    numbers of the roots of the head; deleting a root that is not there
    answers [data.ErrNotFound]. *)
Definition solo_Feeds (c : list Z) : list unit := [tt].

Definition solo_Heads (c : list Z) (pk : unit) : list Z + dberr := inl [0].

Definition solo_LastRootSeq (c : list Z) (pk : unit) (nonce : Z) : Z + dberr :=
  if nonce =? 0 then
    match c with
    | [] => inr ErrNotFound
    | s :: rest => inl (fold_left Z.max rest s)
    end
  else inr ErrNotFound.

Definition solo_DelRoot (c : list Z) (pk : unit) (nonce seq : Z)
    : list Z * option dberr :=
  if (nonce =? 0) && existsb (Z.eqb seq) c
  then (List.filter (fun s => negb (s =? seq)) c, None)
  else (c, Some ErrNotFound).

(** Rounds of the dial activity in each of which the first dialing
    succeeds. *)
Definition connects (ss : list (error * stream * handoff_case)) : list round :=
  map (fun x => RoundTrigger (fst (fst x)) [AttemptOk (snd (fst x)) (snd x)]) ss.

(** * Properties *)

(** ** The model at work *)

Example le_put_uint32_258 :
  le_put_uint32 258 = [Byte.x02; Byte.x01; Byte.x00; Byte.x00].
Proof. reflexivity. Qed.

Example int_of_high_length :
  int Host32 (le_uint32 [Byte.x00; Byte.x00; Byte.x00; Byte.x80]) = - 2 ^ 31
  /\ int Host64 (le_uint32 [Byte.x00; Byte.x00; Byte.x00; Byte.x80]) = 2 ^ 31.
Proof. split; reflexivity. Qed.

Example filter_on_eof :
  OnDialFilter (fun _ => false) tt (Some ErrEOF) = Some ErrEOF.
Proof. reflexivity. Qed.

Example filter_on_reset :
  OnDialFilter (fun _ => false) tt
    (Some (ErrOp "write" (Some (ErrSyscall "write" (Some (ErrErrno 0x68))))))
  = Some (ErrOp "write" (Some (ErrSyscall "write" (Some (ErrErrno 0x68))))).
Proof. reflexivity. Qed.

Example filter_on_temporary_reset :
  OnDialFilter (fun _ => true) tt
    (Some (ErrOp "accept" (Some (ErrSyscall "accept" (Some (ErrErrno 0x68))))))
  = None.
Proof. reflexivity. Qed.

Example filter_on_refused :
  OnDialFilter (fun _ => false) tt (Some refused) = None.
Proof. reflexivity. Qed.

(** Two frames and a stream that ends: both bodies go to [c.readq], then
    the end of the stream starts a recovery. *)
Example read_two_frames :
  read_stream Host64 (conf_max 0) (fun _ => mkFrameObs false EnqueueSent)
    (mkReader ([Byte.x01; Byte.x00; Byte.x00; Byte.x00; Byte.xaa]
               ++ [Byte.x00; Byte.x00; Byte.x00; Byte.x00]
               ++ [Byte.x02; Byte.x00; Byte.x00; Byte.x00; Byte.xbb; Byte.xcc])
       ErrEOF)
  = Some ([[Byte.xaa]; []; [Byte.xbb; Byte.xcc]], ReadRedial ErrEOF).
Proof. reflexivity. Qed.

(** A stream cut inside a body. *)
Example read_short_body :
  read_stream Host64 (conf_max 0) (fun _ => mkFrameObs false EnqueueSent)
    (mkReader [Byte.x02; Byte.x00; Byte.x00; Byte.x00; Byte.xbb] ErrEOF)
  = Some ([], ReadRedial ErrUnexpectedEOF).
Proof. reflexivity. Qed.

(** The timeouts after one failed dialing after another, from
    [RedialTimeout = 0] with [MaxRedialTimeout] of five seconds. *)
Example redial_backoff_sequence :
  map (fun n => Nat.iter n (redial_backoff (conf_redial 0 (5 * Second))) 0)
    (seq 1 8)
  = [100 * Millisecond; 200 * Millisecond; 400 * Millisecond;
     800 * Millisecond; 1600 * Millisecond; 3200 * Millisecond;
     5 * Second; 5 * Second].
Proof. reflexivity. Qed.

(** [DialsLimit = 2] and an address that refuses: two dialings, then the
    connection is closed and [OnCloseConnection] is called once. *)
Example dial_limit_two :
  w_trace (snd (dial Host64
                  [RoundTrigger None (fails [refused; refused; refused])]
                  2 (outgoing_world (conf_dials 2))))
  = [EvSendDialtr None; EvDialing "127.0.0.1:9"; EvDialing "127.0.0.1:9";
     EvCloseChan; EvPoolDelete "127.0.0.1:9";
     EvOnCloseConnection "127.0.0.1:9"].
Proof. reflexivity. Qed.

(** ** Machine integers and bytes *)

Lemma int_bits_pos h : 0 < int_bits h.
Proof. destruct h; reflexivity. Qed.

Lemma wrap_signed_id w x :
  0 < w -> - 2 ^ (w - 1) <= x < 2 ^ (w - 1) -> wrap_signed w x = x.
Proof.
  intros Hw Hx. unfold wrap_signed.
  assert (E : 2 ^ w = 2 * 2 ^ (w - 1)).
  { replace w with (Z.succ (w - 1)) at 1 by lia. apply Z.pow_succ_r. lia. }
  rewrite Z.mod_small; lia.
Qed.

Lemma int_id h x : min_int h <= x <= max_int h -> int h x = x.
Proof.
  unfold int, min_int, max_int. intros Hx.
  apply wrap_signed_id; [apply int_bits_pos | lia].
Qed.

(** One below the least [int] is the largest [int]. *)
Lemma int_wraps_below_min h : int h (min_int h - 1) = max_int h.
Proof. destruct h; reflexivity. Qed.

Lemma int64_id x : - 2 ^ 63 <= x < 2 ^ 63 -> int64 x = x.
Proof. intros Hx. apply wrap_signed_id; simpl; lia. Qed.

Lemma uint32_id x : 0 <= x < 2 ^ 32 -> uint32 x = x.
Proof. intros Hx. apply Z.mod_small. exact Hx. Qed.

Lemma uint32_range x : 0 <= uint32 x < 2 ^ 32.
Proof. apply Z.mod_pos_bound. reflexivity. Qed.

Lemma byte_to_of_Z x : byte_to_Z (byte_of_Z x) = x mod 256.
Proof.
  unfold byte_to_Z, byte_of_Z.
  assert (Hr : 0 <= x mod 256 < 256) by (apply Z.mod_pos_bound; lia).
  destruct (Byte.of_N (Z.to_N (x mod 256))) as [b|] eqn:E.
  - apply Byte.to_of_N in E. rewrite E. rewrite Z2N.id; lia.
  - exfalso. apply Byte.of_N_None_iff in E. lia.
Qed.

Lemma byte_to_Z_range b : 0 <= byte_to_Z b < 256.
Proof.
  unfold byte_to_Z. pose proof (Byte.to_N_bounded b). lia.
Qed.

Lemma testbit_low_byte x n :
  0 <= n -> Z.testbit (x mod 256) n = (n <? 8) && Z.testbit x n.
Proof.
  intros Hn. change 256 with (2 ^ 8).
  destruct (Z.ltb_spec n 8).
  - rewrite Z.mod_pow2_bits_low by lia. reflexivity.
  - rewrite Z.mod_pow2_bits_high by lia. reflexivity.
Qed.

Lemma testbit_byte_at v k n :
  0 <= k -> 0 <= n ->
  Z.testbit (Z.shiftl (Z.shiftr v k mod 256) k) n
  = (k <=? n) && (n <? k + 8) && Z.testbit v n.
Proof.
  intros Hk Hn. rewrite Z.shiftl_spec by lia.
  destruct (Z.leb_spec k n) as [Hle|Hgt].
  - rewrite testbit_low_byte by lia.
    rewrite Z.shiftr_spec by lia.
    replace (n - k + k) with n by lia.
    replace (n - k <? 8) with (n <? k + 8); [reflexivity|].
    destruct (Z.ltb_spec n (k + 8)), (Z.ltb_spec (n - k) 8); lia || reflexivity.
  - rewrite Z.testbit_neg_r by lia. reflexivity.
Qed.

(** Four bytes cut from [v] and glued back give [v] modulo [2^32]. *)
Lemma glue_bytes v :
  Z.lor (Z.lor (Z.lor (v mod 256) (Z.shiftl (Z.shiftr v 8 mod 256) 8))
               (Z.shiftl (Z.shiftr v 16 mod 256) 16))
        (Z.shiftl (Z.shiftr v 24 mod 256) 24) = v mod 2 ^ 32.
Proof.
  apply Z.bits_inj'. intros n Hn.
  rewrite !Z.lor_spec, !testbit_byte_at, testbit_low_byte by lia.
  destruct (Z.ltb_spec n 32) as [Hlt|Hge];
    [rewrite Z.mod_pow2_bits_low by lia
    |rewrite Z.mod_pow2_bits_high by lia];
    repeat match goal with
           | |- context [?a <? ?b] => destruct (Z.ltb_spec a b); try lia
           | |- context [?a <=? ?b] => destruct (Z.leb_spec a b); try lia
           end;
    simpl; rewrite ?orb_false_r; reflexivity.
Qed.

Lemma le_uint32_put v : le_uint32 (le_put_uint32 v) = uint32 v.
Proof.
  unfold le_uint32, le_put_uint32, nth_byte. simpl nth.
  rewrite !byte_to_of_Z. apply glue_bytes.
Qed.

Lemma be_uint32_put v : be_uint32 (be_put_uint32 v) = uint32 v.
Proof.
  unfold be_uint32, be_put_uint32, nth_byte. simpl nth.
  rewrite !byte_to_of_Z. apply glue_bytes.
Qed.

Lemma le_put_uint32_length v : length (le_put_uint32 v) = 4%nat.
Proof. reflexivity. Qed.

(** ** The version stamp of [cxds] *)

(** C10: [encodeUint32] does not look at its argument: it returns the four
    big-endian bytes of [Version], which is 2; so decoding what it encoded
    gives 2 whatever [u] is, and [versionBytes] is [encodeUint32] of any
    argument. *)
Theorem encodeUint32_ignores_argument (u : Z) :
  Cxds.encodeUint32 u = be_put_uint32 Cxds.Version
  /\ Cxds.encodeUint32 u = [Byte.x00; Byte.x00; Byte.x00; Byte.x02]
  /\ Cxds.decodeUint32 (Cxds.encodeUint32 u) = Some 2
  /\ Cxds.versionBytes = Cxds.encodeUint32 u.
Proof. repeat split. Qed.

(** ** The dial filter *)

Lemma OnDialFilter_by_cases (Temporary : goerr -> bool) (C : Type) (c : C)
    (err : error) :
  OnDialFilter Temporary c err = dial_filter_by_cases Temporary err.
Proof.
  destruct err as [e|]; [|reflexivity].
  unfold OnDialFilter, dial_filter_by_cases, is_temporary_net_error.
  destruct e as [ | n | call inner | op inner | msg | msg ]; simpl;
    try reflexivity.
  destruct (Temporary (ErrOp op inner)); [reflexivity|].
  destruct inner as [i|]; [|reflexivity].
  destruct i as [ | | call j | | | ]; try reflexivity.
  destruct j as [j|]; [|reflexivity].
  destruct j; reflexivity.
Qed.

(** C7: for every error handed to [OnDialFilter]: a temporary network error
    gives nil; failing that, [io.EOF] and errno 0x68 inside a
    [*os.SyscallError] inside a [*net.OpError] give the error itself; every
    other error (the nil one too) gives nil. *)
Theorem OnDialFilter_cases (Temporary : goerr -> bool) (C : Type) (c : C) :
  (forall err,
      OnDialFilter Temporary c err = dial_filter_by_cases Temporary err)
  /\ OnDialFilter Temporary c None = None
  /\ (forall e,
         is_temporary_net_error Temporary e = true ->
         OnDialFilter Temporary c (Some e) = None)
  /\ (forall e,
         is_temporary_net_error Temporary e = false ->
         e = ErrEOF \/ is_conn_reset e = true ->
         OnDialFilter Temporary c (Some e) = Some e)
  /\ (forall e,
         is_temporary_net_error Temporary e = false ->
         e <> ErrEOF -> is_conn_reset e = false ->
         OnDialFilter Temporary c (Some e) = None).
Proof.
  split; [apply OnDialFilter_by_cases|].
  split; [reflexivity|].
  split; [|split]; intros e Htemp.
  - rewrite OnDialFilter_by_cases. cbn [dial_filter_by_cases].
    rewrite Htemp. reflexivity.
  - intros Hgive. rewrite OnDialFilter_by_cases. cbn [dial_filter_by_cases].
    rewrite Htemp. destruct Hgive as [->|Hreset]; [reflexivity|].
    rewrite Hreset. destruct e; reflexivity.
  - intros Hneof Hreset. rewrite OnDialFilter_by_cases.
    cbn [dial_filter_by_cases]. rewrite Htemp, Hreset.
    destruct e; try reflexivity. contradiction.
Qed.

Lemma OnDialFilter_cases_witness :
  OnDialFilter (fun _ => false) tt (Some ErrEOF) = Some ErrEOF
  /\ OnDialFilter (fun e => is_conn_reset e) tt
       (Some (ErrOp "read" (Some (ErrSyscall "read" (Some (ErrErrno 0x68))))))
     = None
  /\ OnDialFilter (fun _ => false) tt
       (Some (ErrOp "read" (Some (ErrSyscall "read" (Some (ErrErrno 0x68))))))
     = Some (ErrOp "read" (Some (ErrSyscall "read" (Some (ErrErrno 0x68)))))
  /\ OnDialFilter (fun _ => false) tt (Some refused) = None.
Proof.
  destruct (OnDialFilter_cases (fun _ => false) unit tt)
    as (_ & _ & _ & Hgive & Hnil).
  destruct (OnDialFilter_cases (fun e => is_conn_reset e) unit tt)
    as (_ & _ & Htemp & _).
  split; [|split; [|split]].
  - apply Hgive; [reflexivity | left; reflexivity].
  - apply Htemp. reflexivity.
  - apply Hgive; [reflexivity | right; reflexivity].
  - apply Hnil; [reflexivity | discriminate | reflexivity].
Defined.

(** ** The framed codec *)

Section Codec.

Variable h : host.
Variable cf : Config.

Lemma ReadFull_app (a rest : list byte) (flt : goerr) :
  ReadFull (mkReader (a ++ rest) flt) (length a)
  = (mkReader rest flt, inl a).
Proof.
  unfold ReadFull. cbn [pending fault].
  rewrite length_app.
  replace (length a <=? length a + length rest)%nat with true
    by (symmetry; apply Nat.leb_le; lia).
  rewrite take_app_length, drop_app_length. reflexivity.
Qed.

Lemma oversize_false l :
  MaxMessageSize cf <= 0 \/ l <= MaxMessageSize cf -> oversize cf l = false.
Proof.
  unfold oversize. intros [H|H].
  - replace (MaxMessageSize cf >? 0) with false; [reflexivity|].
    symmetry. rewrite Z.gtb_ltb. apply Z.ltb_ge. exact H.
  - replace (l >? MaxMessageSize cf) with false; [apply andb_false_r|].
    symmetry. rewrite Z.gtb_ltb. apply Z.ltb_ge. exact H.
Qed.

Lemma oversize_true l :
  0 < MaxMessageSize cf -> MaxMessageSize cf < l -> oversize cf l = true.
Proof.
  unfold oversize. intros H1 H2. rewrite !Z.gtb_ltb.
  apply andb_true_intro. split; apply Z.ltb_lt; assumption.
Qed.

(** A head that announces [len body] bytes within the limit, then the
    body: the turn of [ReadLoop] yields the body and leaves the rest. *)
Lemma read_frame_ok (head body rest : list byte) (flt : goerr) :
  length head = 4%nat ->
  int h (le_uint32 head) = len body ->
  oversize cf (len body) = false ->
  read_frame h cf (mkReader (head ++ body ++ rest) flt)
  = StepFrame body (mkReader rest flt).
Proof.
  intros Hhead Hl Hsize. unfold read_frame.
  rewrite <- Hhead, ReadFull_app, Hl.
  replace (len body <? 0) with false
    by (symmetry; apply Z.ltb_ge; unfold len; lia).
  fold (oversize cf (len body)). rewrite Hsize.
  unfold len. rewrite Nat2Z.id, ReadFull_app. reflexivity.
Qed.

(** A head that announces a negative or an oversize cf length is fatal,
    whatever follows. *)
Lemma read_frame_fatal (head rest : list byte) (flt : goerr) :
  length head = 4%nat ->
  int h (le_uint32 head) < 0 \/ oversize cf (int h (le_uint32 head)) = true ->
  read_frame h cf (mkReader (head ++ rest) flt)
  = StepFatal (int h (le_uint32 head)).
Proof.
  intros Hhead Hbad. unfold read_frame.
  rewrite <- Hhead, ReadFull_app.
  destruct (Z.ltb_spec (int h (le_uint32 head)) 0) as [|Hge]; [reflexivity|].
  destruct Hbad as [Hneg|Hover]; [lia|].
  fold (oversize cf (int h (le_uint32 head))). rewrite Hover. reflexivity.
Qed.

(** [writeMsg] on a writer that meets no failure. *)
Lemma writeMsg_ok (is_closed : bool) (out body : list byte) :
  oversize cf (len body) = false ->
  writeMsg cf is_closed (mkWriter out []) body
  = (false, None,
     mkWriter (out ++ le_put_uint32 (uint32 (len body)) ++ body) []).
Proof.
  intros Hsize. unfold writeMsg.
  fold (oversize cf (len body)). rewrite Hsize.
  unfold Write. cbn [w_script w_out].
  rewrite <- app_assoc. reflexivity.
Qed.

Lemma writeMsg_oversize (is_closed : bool) (w : writer) (body : list byte) :
  oversize cf (len body) = true ->
  writeMsg cf is_closed w body = (true, None, w).
Proof.
  intros Hsize. unfold writeMsg.
  fold (oversize cf (len body)). rewrite Hsize. reflexivity.
Qed.

(** The head [writeMsg] writes announces the length of the body as long
    as that fits the four bytes and the reader's [int]. *)
Lemma head_announces_len (body : list byte) :
  len body < 2 ^ 32 -> len body <= max_int h ->
  int h (le_uint32 (le_put_uint32 (uint32 (len body)))) = len body.
Proof.
  intros H32 Hint.
  assert (0 <= len body) by (unfold len; lia).
  rewrite (uint32_id (len body)) by lia.
  rewrite le_uint32_put, uint32_id by lia.
  apply int_id. unfold min_int. pose proof (int_bits_pos h).
  assert (0 < 2 ^ (int_bits h - 1)) by (apply Z.pow_pos_nonneg; lia).
  lia.
Qed.

End Codec.

(** [read] returns, with its deferred [Close], when the first turn over a
    stream meets a fatal length: no recovery is started. *)
Lemma read_fatal_returns (h : host) (s : stream) (r : reader)
    (obs : nat -> frame_obs) (env : redial_env) (rounds : list read_round)
    (w : World) (l : Z) :
  read_frame h (w_conf w) r = StepFatal l ->
  read h (ReadStream s r obs env :: rounds) w
  = Some (ReadReturned, [], Close w).
Proof.
  intros Hfatal. cbn [read]. unfold read_stream. cbn [ReadLoop].
  rewrite Hfatal. reflexivity.
Qed.

(** C9: with [MaxMessageSize > 0] and a body longer than that, [writeMsg]
    returns [terminate = true] and the writer is as it was before the call:
    neither the head nor the body has been written. *)
Theorem writeMsg_oversize_writes_nothing (cf : Config) (is_closed : bool)
    (w : writer) (body : list byte) :
  MaxMessageSize cf > 0 ->
  len body > MaxMessageSize cf ->
  writeMsg cf is_closed w body = (true, None, w).
Proof.
  intros Hmax Hlen. apply writeMsg_oversize. apply oversize_true; lia.
Qed.

Lemma writeMsg_oversize_writes_nothing_witness :
  writeMsg (conf_max 2) false failing_writer [Byte.x01; Byte.x02; Byte.x03]
  = (true, None, failing_writer).
Proof.
  apply writeMsg_oversize_writes_nothing.
  - reflexivity.
  - reflexivity.
Defined.

Lemma len_body_4GiB : len body_4GiB = 2 ^ 32.
Proof.
  unfold len, body_4GiB. rewrite repeat_length. apply Z2Nat.id. lia.
Qed.

(** With no limit on the size of messages, a body of [2^32] bytes gets a
    head of four zero bytes, and a turn of [ReadLoop] takes an empty body
    out of that frame. *)
Lemma frame_wraps_at_2_32 (x : list byte) :
  len x = 2 ^ 32 ->
  writeMsg (conf_max 0) false (mkWriter [] []) x
  = (false, None, mkWriter ([Byte.x00; Byte.x00; Byte.x00; Byte.x00] ++ x) [])
  /\ read_frame Host64 (conf_max 0)
       (mkReader ([Byte.x00; Byte.x00; Byte.x00; Byte.x00] ++ x) ErrEOF)
     = StepFrame [] (mkReader x ErrEOF)
  /\ x <> [].
Proof.
  intros Hlen. split; [|split].
  - rewrite writeMsg_ok by (apply oversize_false; left; reflexivity).
    rewrite Hlen. reflexivity.
  - apply (read_frame_ok Host64 (conf_max 0) _ [] x ErrEOF); reflexivity.
  - intros ->. discriminate Hlen.
Qed.

(** The round trip of [body_4GiB] does not give the body back. *)
Lemma frame_roundtrip_counterexample :
  writeMsg (conf_max 0) false (mkWriter [] []) body_4GiB
  = (false, None,
     mkWriter ([Byte.x00; Byte.x00; Byte.x00; Byte.x00] ++ body_4GiB) [])
  /\ read_frame Host64 (conf_max 0)
       (mkReader ([Byte.x00; Byte.x00; Byte.x00; Byte.x00] ++ body_4GiB) ErrEOF)
     = StepFrame [] (mkReader body_4GiB ErrEOF)
  /\ body_4GiB <> [].
Proof. exact (frame_wraps_at_2_32 body_4GiB len_body_4GiB). Qed.

(** C4, amended: a body shorter than [2^32] bytes (and within the [int] of
    the reading host) that is within [MaxMessageSize], or of any such
    length when [MaxMessageSize = 0], is written by [writeMsg] as its
    length in four little-endian bytes and then the body, and a turn of
    [ReadLoop] over these bytes yields exactly the body and leaves what
    follows them. *)
Theorem frame_roundtrip (h : host) (cf : Config) (is_closed : bool)
    (x rest : list byte) (flt : goerr) :
  MaxMessageSize cf = 0 \/ len x <= MaxMessageSize cf ->
  len x < 2 ^ 32 ->
  len x <= max_int h ->
  writeMsg cf is_closed (mkWriter [] []) x
  = (false, None, mkWriter (le_put_uint32 (uint32 (len x)) ++ x) [])
  /\ read_frame h cf (mkReader ((le_put_uint32 (uint32 (len x)) ++ x) ++ rest) flt)
     = StepFrame x (mkReader rest flt).
Proof.
  intros Hmax H32 Hint.
  assert (Hsize : oversize cf (len x) = false)
    by (apply oversize_false; lia).
  split.
  - rewrite writeMsg_ok by exact Hsize. reflexivity.
  - rewrite <- app_assoc. apply read_frame_ok.
    + reflexivity.
    + apply head_announces_len; assumption.
    + exact Hsize.
Qed.

Lemma frame_roundtrip_witness :
  writeMsg (conf_max 3) false (mkWriter [] []) [Byte.x01; Byte.x02; Byte.x03]
  = (false, None,
     mkWriter (le_put_uint32 (uint32 3) ++ [Byte.x01; Byte.x02; Byte.x03]) [])
  /\ read_frame Host32 (conf_max 3)
       (mkReader ((le_put_uint32 (uint32 3) ++ [Byte.x01; Byte.x02; Byte.x03])
                  ++ [Byte.xff]) ErrEOF)
     = StepFrame [Byte.x01; Byte.x02; Byte.x03] (mkReader [Byte.xff] ErrEOF).
Proof.
  apply (frame_roundtrip Host32 (conf_max 3) false
           [Byte.x01; Byte.x02; Byte.x03] [Byte.xff] ErrEOF).
  - right. vm_compute. discriminate.
  - reflexivity.
  - vm_compute. discriminate.
Defined.

(** A length above the limit that four bytes can announce is fatal to the
    reader on either host: as an [int] it is above the limit still, or
    negative. *)
Lemma announced_above_limit (h : host) (cf : Config) (L : Z) :
  0 < MaxMessageSize cf -> MaxMessageSize cf < L -> L < 2 ^ 32 ->
  int h L < 0 \/ oversize cf (int h L) = true.
Proof.
  intros Hpos Hlim H32.
  destruct (Z.le_gt_cases L (max_int h)) as [Hle|Hgt].
  - right. rewrite int_id.
    + apply oversize_true; assumption.
    + unfold min_int. pose proof (int_bits_pos h).
      assert (0 < 2 ^ (int_bits h - 1)) by (apply Z.pow_pos_nonneg; lia).
      lia.
  - left. destruct h; unfold max_int, int_bits in Hgt.
    + unfold int, wrap_signed, int_bits.
      replace (L + 2 ^ (32 - 1)) with (L - 2 ^ 31 + 1 * 2 ^ 32) by lia.
      rewrite Z.mod_add by lia. rewrite Z.mod_small; lia.
    + lia.
Qed.

(** With [MaxMessageSize = 2^32], a body of exactly that many bytes is
    within the limit for [writeMsg], which writes it behind a head of four
    zero bytes; a turn of [ReadLoop] on a 64-bit host takes an empty body
    out of that frame and leaves the bytes of the body as if frames
    followed. *)
Lemma limit_wraps_at_2_32 (x : list byte) :
  len x = 2 ^ 32 ->
  MaxMessageSize (conf_max (2 ^ 32)) > 0
  /\ len x = MaxMessageSize (conf_max (2 ^ 32))
  /\ writeMsg (conf_max (2 ^ 32)) false (mkWriter [] []) x
     = (false, None, mkWriter ([Byte.x00; Byte.x00; Byte.x00; Byte.x00] ++ x) [])
  /\ read_frame Host64 (conf_max (2 ^ 32))
       (mkReader ([Byte.x00; Byte.x00; Byte.x00; Byte.x00] ++ x) ErrEOF)
     = StepFrame [] (mkReader x ErrEOF)
  /\ x <> [].
Proof.
  intros Hlen. split; [reflexivity|]. split; [exact Hlen|]. split; [|split].
  - rewrite writeMsg_ok by (apply oversize_false; right; rewrite Hlen; reflexivity).
    rewrite Hlen. reflexivity.
  - apply (read_frame_ok Host64 (conf_max (2 ^ 32)) _ [] x ErrEOF); reflexivity.
  - intros ->. discriminate Hlen.
Qed.

(** The decoder does not accept the payload of [MaxMessageSize = 2^32]
    bytes the encoder accepts: it takes an empty body. *)
Lemma size_limit_counterexample :
  MaxMessageSize (conf_max (2 ^ 32)) > 0
  /\ len body_4GiB = MaxMessageSize (conf_max (2 ^ 32))
  /\ writeMsg (conf_max (2 ^ 32)) false (mkWriter [] []) body_4GiB
     = (false, None,
        mkWriter ([Byte.x00; Byte.x00; Byte.x00; Byte.x00] ++ body_4GiB) [])
  /\ read_frame Host64 (conf_max (2 ^ 32))
       (mkReader ([Byte.x00; Byte.x00; Byte.x00; Byte.x00] ++ body_4GiB) ErrEOF)
     = StepFrame [] (mkReader body_4GiB ErrEOF)
  /\ body_4GiB <> [].
Proof. exact (limit_wraps_at_2_32 body_4GiB len_body_4GiB). Qed.

(** C5, amended: with [MaxMessageSize = M > 0], [writeMsg] writes a body of
    exactly [M] bytes, and for [M + 1] bytes it returns [terminate = true];
    when [M] is below [2^32] (and an [int] of the reading host) a turn of
    [ReadLoop] takes the frame [writeMsg] wrote for the [M] bytes and yields
    them; a head announcing [M + 1] bytes (which four bytes can do when
    [M + 1 < 2^32]) makes the turn of [ReadLoop] fatal, and so does every
    length that as an [int] is negative or above [M]; and on a fatal length,
    in the first frame of a stream or in a later one, [read] returns (its
    deferred [Close] runs) and starts no recovery. *)
Theorem size_limit_boundary (h : host) (cf : Config) (M : Z) :
  MaxMessageSize cf = M ->
  M > 0 ->
  (forall is_closed out body,
      len body = M ->
      writeMsg cf is_closed (mkWriter out []) body
      = (false, None,
         mkWriter (out ++ le_put_uint32 (uint32 M) ++ body) []))
  /\ (forall is_closed w body,
         len body = M + 1 ->
         writeMsg cf is_closed w body = (true, None, w))
  /\ (M < 2 ^ 32 -> M <= max_int h ->
      forall is_closed body rest flt,
        len body = M ->
        exists frame,
          writeMsg cf is_closed (mkWriter [] []) body
          = (false, None, mkWriter frame [])
          /\ read_frame h cf (mkReader (frame ++ rest) flt)
             = StepFrame body (mkReader rest flt))
  /\ (M + 1 < 2 ^ 32 ->
      forall rest flt,
        read_frame h cf (mkReader (le_put_uint32 (M + 1) ++ rest) flt)
        = StepFatal (int h (M + 1)))
  /\ (forall head rest flt,
         length head = 4%nat ->
         int h (le_uint32 head) < 0 \/ M < int h (le_uint32 head) ->
         read_frame h cf (mkReader (head ++ rest) flt)
         = StepFatal (int h (le_uint32 head)))
  /\ (forall s r obs env rounds w l,
         w_conf w = cf -> read_frame h cf r = StepFatal l ->
         read h (ReadStream s r obs env :: rounds) w
         = Some (ReadReturned, [], Close w))
  /\ (forall s r obs env rounds w q l,
         w_conf w = cf -> read_stream h cf obs r = Some (q, ReadFatal l) ->
         read h (ReadStream s r obs env :: rounds) w
         = Some (ReadReturned, q, Close w)).
Proof.
  intros HM Hpos. split; [|split; [|split; [|split; [|split; [|split]]]]].
  - intros is_closed out body Hlen. rewrite <- Hlen.
    apply writeMsg_ok. apply oversize_false. lia.
  - intros is_closed w body Hlen.
    apply writeMsg_oversize. apply oversize_true; lia.
  - intros H32 Hint is_closed body rest flt Hlen.
    assert (Hsize : oversize cf (len body) = false)
      by (apply oversize_false; lia).
    exists (le_put_uint32 (uint32 (len body)) ++ body). split.
    + rewrite writeMsg_ok by exact Hsize. reflexivity.
    + rewrite <- app_assoc. apply read_frame_ok.
      * reflexivity.
      * apply head_announces_len; lia.
      * exact Hsize.
  - intros H32 rest flt.
    assert (Hhead : int h (le_uint32 (le_put_uint32 (M + 1))) = int h (M + 1))
      by (rewrite le_uint32_put, uint32_id by lia; reflexivity).
    rewrite <- Hhead. apply read_frame_fatal; [reflexivity|].
    rewrite Hhead. apply announced_above_limit; lia.
  - intros head rest flt Hhead [Hneg|Hover].
    + apply read_frame_fatal; [assumption|]. left. exact Hneg.
    + apply read_frame_fatal; [assumption|]. right. apply oversize_true; lia.
  - intros s r obs env rounds w l Hcf Hfatal.
    apply read_fatal_returns with (l := l). rewrite Hcf. exact Hfatal.
  - intros s r obs env rounds w q l Hcf Hfatal.
    cbn [read]. rewrite Hcf, Hfatal. reflexivity.
Qed.

Lemma size_limit_boundary_witness :
  writeMsg (conf_max 2) false (mkWriter [] []) [Byte.x01; Byte.x02]
  = (false, None,
     mkWriter ([] ++ le_put_uint32 (uint32 2) ++ [Byte.x01; Byte.x02]) [])
  /\ writeMsg (conf_max 2) false failing_writer [Byte.x01; Byte.x02; Byte.x03]
     = (true, None, failing_writer)
  /\ (exists frame,
         writeMsg (conf_max 2) false (mkWriter [] []) [Byte.x01; Byte.x02]
         = (false, None, mkWriter frame [])
         /\ read_frame Host32 (conf_max 2) (mkReader (frame ++ [Byte.xff]) ErrEOF)
            = StepFrame [Byte.x01; Byte.x02] (mkReader [Byte.xff] ErrEOF))
  /\ read_frame Host32 (conf_max 2)
       (mkReader (le_put_uint32 (2 + 1) ++ [Byte.x01; Byte.x02; Byte.x03]) ErrEOF)
     = StepFatal (int Host32 (2 + 1))
  /\ read_frame Host32 (conf_max 2)
       (mkReader ([Byte.x00; Byte.x00; Byte.x00; Byte.x80] ++ []) ErrEOF)
     = StepFatal (int Host32 (le_uint32 [Byte.x00; Byte.x00; Byte.x00; Byte.x80]))
  /\ read Host32
       [ReadStream 1%nat
          (mkReader [Byte.x03; Byte.x00; Byte.x00; Byte.x00; Byte.x01] ErrEOF)
          (fun _ => mkFrameObs false EnqueueSent)
          (mkRedialEnv false RedialClosed)]
       (peer_world (conf_max 2))
     = Some (ReadReturned, [], Close (peer_world (conf_max 2))).
Proof.
  destruct (size_limit_boundary Host32 (conf_max 2) 2 eq_refl eq_refl)
    as (Hw & Hwo & Hrt & Hro & Hneg & Hret & _).
  split; [|split; [|split; [|split; [|split]]]].
  - apply Hw. reflexivity.
  - apply Hwo. reflexivity.
  - apply Hrt; [reflexivity | discriminate | reflexivity].
  - apply Hro. reflexivity.
  - apply (Hneg [Byte.x00; Byte.x00; Byte.x00; Byte.x80] [] ErrEOF).
    + reflexivity.
    + left. reflexivity.
  - apply Hret with (l := 3).
    + reflexivity.
    + reflexivity.
Defined.

(** ** [Close] *)

Lemma count_app f t1 t2 : count f (t1 ++ t2) = (count f t1 + count f t2)%nat.
Proof. unfold count. rewrite List.filter_app, length_app. reflexivity. Qed.

Lemma Close_fired (w : World) : closeo (w_conn w) = true -> Close w = w.
Proof. unfold Close. intros ->. reflexivity. Qed.

Lemma Close_fresh (w : World) :
  closeo (w_conn w) = false ->
  Close w
  = mkWorld
      (mkConn (Address w) (conn (w_conn w))
         (match conn (w_conn w) with
          | Some _ => ConnStateClosed
          | None => State w
          end)
         (incoming (w_conn w)) true true)
      (pool_delete (Address w) (w_pool w))
      (w_trace w ++ close_events w).
Proof.
  destruct w as [[a c st inc once cl] p t]. cbn. intros ->.
  unfold Close, close_once, closeConnection, close_events, w_conf, Address.
  cbn. destruct c as [s|]; cbn; destruct (OnCloseConnection (conf p));
    unfold log, with_conn, with_pool, set_state, set_closed, set_closeo; cbn;
    rewrite <- ?app_assoc; reflexivity.
Qed.

Lemma closeo_Close (w : World) : closeo (w_conn (Close w)) = true.
Proof.
  destruct (closeo (w_conn w)) eqn:E.
  - rewrite Close_fired; assumption.
  - rewrite Close_fresh by assumption. reflexivity.
Qed.

Lemma Close_Close (w : World) : Close (Close w) = Close w.
Proof. apply Close_fired, closeo_Close. Qed.

Lemma iter_Close (n : nat) (w : World) :
  (1 <= n)%nat -> Nat.iter n Close w = Close w.
Proof.
  induction n as [|n IH]; [lia|]. intros _.
  destruct n as [|n]; [reflexivity|].
  change (Nat.iter (S (S n)) Close w) with (Close (Nat.iter (S n) Close w)).
  rewrite IH by lia. apply Close_Close.
Qed.

(** The state after [Close], by cases: with a stream, and the once not yet
    fired, the state is [ConnStateClosed]. *)
Lemma Close_with_stream (w : World) (s : stream) :
  closeo (w_conn w) = false -> conn (w_conn w) = Some s ->
  State (Close w) = ConnStateClosed.
Proof.
  intros Honce Hconn. rewrite Close_fresh by assumption.
  unfold State. cbn. rewrite Hconn. reflexivity.
Qed.

Lemma Close_without_stream (w : World) :
  conn (w_conn w) = None -> State (Close w) = State w.
Proof.
  intros Hconn. destruct (closeo (w_conn w)) eqn:E.
  - rewrite Close_fired; auto.
  - rewrite Close_fresh by assumption. unfold State. cbn.
    rewrite Hconn. reflexivity.
Qed.

Lemma Close_trace (w : World) :
  exists evs,
    w_trace (Close w) = w_trace w ++ evs
    /\ Forall (fun e => is_redial_event e = false) evs.
Proof.
  destruct (closeo (w_conn w)) eqn:E.
  - exists []. rewrite Close_fired by assumption.
    split; [symmetry; apply app_nil_r | constructor].
  - exists (close_events w). rewrite Close_fresh by assumption.
    split; [reflexivity|]. unfold close_events.
    destruct (conn (w_conn w)), (OnCloseConnection (w_conf w));
      repeat constructor.
Qed.

Lemma incoming_Close (w : World) :
  incoming (w_conn (Close w)) = incoming (w_conn w).
Proof.
  destruct (closeo (w_conn w)) eqn:E.
  - rewrite Close_fired; auto.
  - rewrite Close_fresh by assumption. reflexivity.
Qed.

Lemma w_conf_Close (w : World) : w_conf (Close w) = w_conf w.
Proof.
  destruct (closeo (w_conn w)) eqn:E.
  - rewrite Close_fired; auto.
  - rewrite Close_fresh by assumption. reflexivity.
Qed.

(** What [Close] does to a connection whose once has not fired: the channel
    [closed] is closed and the address is out of the registry. *)
Lemma Close_closes (w : World) :
  closeo (w_conn w) = false ->
  isClosed (Close w) = true
  /\ conns (w_pool (Close w)) !! Address w = None
  /\ In EvCloseChan (w_trace (Close w)).
Proof.
  intros Hfresh. rewrite Close_fresh by exact Hfresh.
  cbn [isClosed w_conn closed w_pool w_trace]. split; [reflexivity|]. split.
  - unfold pool_delete. cbn [conns]. apply lookup_delete_eq.
  - apply in_or_app. right. left. reflexivity.
Qed.

(** C1, at a connection that never got a stream: an outgoing connection is
    created and its one permitted dialing is refused; the dial activity
    returns and its deferred [Close] runs, the channel [closed] is closed,
    and [State()] still answers [ConnStateDialing]; so does it after a
    [Close] by the application right after the creation. *)
Theorem Close_without_stream_stays_Dialing :
  State dialing_world = ConnStateDialing
  /\ State (Close dialing_world) = ConnStateDialing
  /\ isClosed (Close dialing_world) = true
  /\ fst (dial Host64 [RoundTrigger None [AttemptFail refused WaitElapsed]]
            (DialsLimit (w_conf dialing_world)) dialing_world)
     = DialReturned ExitLimit
  /\ State (snd (dial Host64 [RoundTrigger None [AttemptFail refused WaitElapsed]]
                   (DialsLimit (w_conf dialing_world)) dialing_world))
     = ConnStateDialing
  /\ isClosed (snd (dial Host64 [RoundTrigger None [AttemptFail refused WaitElapsed]]
                      (DialsLimit (w_conf dialing_world)) dialing_world))
     = true.
Proof. repeat split. Qed.

(** C8: [Close] called [n >= 1] times leaves the same world as [Close]
    called once; and on a connection not closed before, the [n] calls close
    the channel [closed] once, take the address out of the registry of the
    pool once, and call [OnCloseConnection] (when it is set) once. *)
Theorem Close_n_times_as_once (n : nat) (w : World) :
  (1 <= n)%nat ->
  Nat.iter n Close w = Close w
  /\ (closeo (w_conn w) = false ->
      count is_close_chan (w_trace (Nat.iter n Close w))
      = S (count is_close_chan (w_trace w))
      /\ count (is_pool_delete (Address w)) (w_trace (Nat.iter n Close w))
         = S (count (is_pool_delete (Address w)) (w_trace w))
      /\ conns (w_pool (Nat.iter n Close w)) !! Address w = None
      /\ count is_on_close (w_trace (Nat.iter n Close w))
         = (count is_on_close (w_trace w)
            + if OnCloseConnection (w_conf w) then 1 else 0)%nat).
Proof.
  intros Hn. rewrite iter_Close by exact Hn.
  split; [reflexivity|]. intros Hfresh.
  rewrite Close_fresh by exact Hfresh. cbn [w_trace w_pool].
  rewrite !count_app. unfold close_events, pool_delete. cbn [conns].
  repeat split.
  - destruct (conn (w_conn w)), (OnCloseConnection (w_conf w)); cbn; lia.
  - destruct (conn (w_conn w)), (OnCloseConnection (w_conf w)); cbn;
      rewrite bool_decide_eq_true_2 by reflexivity; cbn; lia.
  - apply lookup_delete_eq.
  - destruct (conn (w_conn w)), (OnCloseConnection (w_conf w)); cbn; lia.
Qed.

Lemma Close_n_times_as_once_witness :
  Nat.iter 3 Close dialing_world = Close dialing_world
  /\ count is_close_chan (w_trace (Nat.iter 3 Close dialing_world)) = 1%nat
  /\ count (is_pool_delete "127.0.0.1:9") (w_trace (Nat.iter 3 Close dialing_world))
     = 1%nat
  /\ conns (w_pool (Nat.iter 3 Close dialing_world)) !! "127.0.0.1:9" = None
  /\ count is_on_close (w_trace (Nat.iter 3 Close dialing_world)) = 1%nat.
Proof.
  destruct (Close_n_times_as_once 3 dialing_world) as [Hsame Hfresh].
  - lia.
  - destruct (Hfresh eq_refl) as (Hchan & Hdel & Hreg & Hcb).
    repeat split; assumption.
Defined.

(** ** Faults on an incoming connection *)

Section Incoming.

Variable w : World.
Hypothesis Hincoming : incoming (w_conn w) = true.

Lemma triggerDialingRead_incoming env err s :
  triggerDialingRead env err s w = Close (log (EvNetClose s) w).
Proof.
  unfold triggerDialingRead. cbn [log w_conn]. rewrite Hincoming. reflexivity.
Qed.

Lemma triggerDialingWrite_incoming env err s :
  triggerDialingWrite env err s w = Close (log (EvNetClose s) w).
Proof.
  unfold triggerDialingWrite. cbn [log w_conn]. rewrite Hincoming. reflexivity.
Qed.

Lemma fault_trace (s : stream) :
  exists evs,
    w_trace (Close (log (EvNetClose s) w)) = w_trace w ++ EvNetClose s :: evs
    /\ Forall (fun e => is_redial_event e = false) evs.
Proof.
  destruct (Close_trace (log (EvNetClose s) w)) as (evs & Htr & Hno).
  exists evs. split; [|exact Hno].
  rewrite Htr. cbn [log w_trace]. rewrite <- app_assoc. reflexivity.
Qed.

End Incoming.

(** Every turn of [ReadLoop] that yields a frame has used its four bytes of
    head. *)
Lemma read_frame_consumes h cf r body r' :
  read_frame h cf r = StepFrame body r' ->
  (length (pending r') < length (pending r))%nat.
Proof.
  unfold read_frame, ReadFull.
  destruct (Nat.leb_spec 4 (length (pending r))) as [H4|]; [|discriminate].
  cbn [pending fault].
  destruct (_ <? 0); [discriminate|].
  destruct (_ && _); [discriminate|].
  match goal with |- context [(?n <=? ?m)%nat] => destruct (Nat.leb_spec n m) end;
    [|discriminate].
  intros [= _ <-]. cbn [pending]. rewrite !length_drop. lia.
Qed.

(** [ReadLoop] with fuel above the number of pending bytes gives a result. *)
Lemma ReadLoop_total h cf obs (fuel : nat) :
  forall i r, (length (pending r) < fuel)%nat ->
              exists q x, ReadLoop fuel h cf obs i r = Some (q, x).
Proof.
  induction fuel as [|fuel IH]; intros i r Hfuel; [lia|].
  cbn [ReadLoop]. destruct (read_frame h cf r) as [body r'|e|l] eqn:E.
  - destruct (on_enqueue (obs i)); [|eauto].
    apply read_frame_consumes in E.
    destruct (IH (S i) r') as (q & x & ->); [lia|]. eauto.
  - eauto.
  - eauto.
Qed.

Lemma read_stream_total h cf obs r :
  exists q x, read_stream h cf obs r = Some (q, x).
Proof. apply ReadLoop_total. lia. Qed.

(** [read] on an incoming connection: it always gives a result, nothing
    it adds to the trace is an event of a redial, and as soon as it has met
    anything (a fault on a stream, a fatal length, [c.closed]) the once of
    [Close] has fired. *)
Lemma read_incoming h (rounds : list read_round) :
  forall w, incoming (w_conn w) = true ->
    exists st q w' evs,
      read h rounds w = Some (st, q, w')
      /\ w_trace w' = w_trace w ++ evs
      /\ Forall (fun e => is_redial_event e = false) evs
      /\ (rounds <> [] \/ closeo (w_conn w) = true -> closeo (w_conn w') = true).
Proof.
  induction rounds as [|[s r obs env|] rest IH]; intros w Hinc; cbn [read].
  - exists ReadParked, [], w, []. rewrite app_nil_r.
    repeat split; [constructor|]. intros [Hne|Hc]; [congruence | exact Hc].
  - destruct (read_stream_total h (w_conf w) obs r) as (q & x & ->).
    destruct (Close_trace w) as (evs & Htr & Hno).
    destruct x as [l| |e].
    + exists ReadReturned, q, (Close w), evs.
      repeat split; auto using closeo_Close.
    + exists ReadReturned, q, (Close w), evs.
      repeat split; auto using closeo_Close.
    + rewrite triggerDialingRead_incoming by exact Hinc.
      destruct (fault_trace w s) as (evs1 & Htr1 & Hno1).
      destruct (IH (Close (log (EvNetClose s) w)))
        as (st & q' & w' & evs2 & -> & Htr2 & Hno2 & Hcl).
      { rewrite incoming_Close. exact Hinc. }
      exists st, (q ++ q'), w', (EvNetClose s :: evs1 ++ evs2).
      split; [reflexivity|]. split; [|split].
      * rewrite Htr2, Htr1, <- app_assoc. reflexivity.
      * constructor; [reflexivity|]. apply Forall_app. split; assumption.
      * intros _. apply Hcl. right. apply closeo_Close.
  - destruct (Close_trace w) as (evs & Htr & Hno).
    exists ReadReturned, [], (Close w), evs.
    repeat split; auto using closeo_Close.
Qed.

(** C6: on an incoming connection, [triggerDialingRead] and
    [triggerDialingWrite] close the stream of the fault and call [Close],
    and that is all: the once of [Close] has fired afterwards, the state is
    not set to [ConnStateDialing], and no event on [dialtr], [readd] or
    [writed] (nor any dialing) is added to the trace; the whole read
    activity, whatever streams and faults it meets, adds no such event
    either, and has closed the connection as soon as it has met a fault. *)
Theorem incoming_fault_closes (h : host) (env : redial_env) (err : error)
    (s : stream) (w : World) :
  incoming (w_conn w) = true ->
  triggerDialingRead env err s w = Close (log (EvNetClose s) w)
  /\ triggerDialingWrite env err s w = Close (log (EvNetClose s) w)
  /\ closeo (w_conn (Close (log (EvNetClose s) w))) = true
  /\ (State (Close (log (EvNetClose s) w)) = State w
      \/ State (Close (log (EvNetClose s) w)) = ConnStateClosed)
  /\ (exists evs,
         w_trace (Close (log (EvNetClose s) w)) = w_trace w ++ EvNetClose s :: evs
         /\ Forall (fun e => is_redial_event e = false) evs)
  /\ (forall rounds, exists st q w' evs,
         read h rounds w = Some (st, q, w')
         /\ w_trace w' = w_trace w ++ evs
         /\ Forall (fun e => is_redial_event e = false) evs
         /\ (rounds <> [] \/ closeo (w_conn w) = true ->
             closeo (w_conn w') = true)).
Proof.
  intros Hinc. repeat split.
  - apply triggerDialingRead_incoming, Hinc.
  - apply triggerDialingWrite_incoming, Hinc.
  - apply closeo_Close.
  - destruct (closeo (w_conn w)) eqn:Honce.
    + left. rewrite Close_fired; [reflexivity | exact Honce].
    + rewrite Close_fresh by exact Honce. unfold State. cbn.
      destruct (conn (w_conn w)); [right | left]; reflexivity.
  - apply fault_trace.
  - intros rounds. apply read_incoming, Hinc.
Qed.

Lemma incoming_fault_closes_witness :
  triggerDialingRead (mkRedialEnv false (RedialSendOwn TriggerSent))
    (Some ErrEOF) 1%nat (peer_world (conf_dials 0))
  = Close (log (EvNetClose 1%nat) (peer_world (conf_dials 0)))
  /\ State (triggerDialingWrite (mkRedialEnv false (RedialSendOwn TriggerSent))
              (Some ErrEOF) 1%nat (peer_world (conf_dials 0)))
     = ConnStateClosed
  /\ w_trace (triggerDialingRead (mkRedialEnv false (RedialSendOwn TriggerSent))
                (Some ErrEOF) 1%nat (peer_world (conf_dials 0)))
     = [EvNetClose 1%nat; EvCloseChan; EvNetClose 1%nat;
        EvPoolDelete "10.0.0.7:4242"; EvOnCloseConnection "10.0.0.7:4242"].
Proof.
  destruct (incoming_fault_closes Host64
              (mkRedialEnv false (RedialSendOwn TriggerSent)) (Some ErrEOF)
              1%nat (peer_world (conf_dials 0)) eq_refl)
    as (Hr & Hw & _).
  split; [exact Hr|]. split.
  - rewrite Hw. reflexivity.
  - rewrite Hr. reflexivity.
Defined.

(** ** The dial activity *)

Lemma redial_backoff_below (cf : Config) (tm : Z) :
  0 <= tm < 2 ^ 62 -> tm < MaxRedialTimeout cf ->
  redial_backoff cf tm
  = Z.min (if tm =? 0 then 100 * Millisecond else 2 * tm) (MaxRedialTimeout cf).
Proof.
  intros Htm Hlt. unfold redial_backoff.
  replace (MaxRedialTimeout cf >? tm) with true
    by (symmetry; rewrite Z.gtb_ltb; apply Z.ltb_lt; exact Hlt).
  destruct (Z.eqb_spec tm 0) as [->|Hnz].
  - change (int64 (100 * Millisecond)) with (100 * Millisecond).
    rewrite Z.gtb_ltb.
    destruct (Z.ltb_spec (MaxRedialTimeout cf) (100 * Millisecond)); lia.
  - rewrite int64_id by lia. rewrite Z.gtb_ltb.
    destruct (Z.ltb_spec (MaxRedialTimeout cf) (tm * 2)); lia.
Qed.

Lemma redial_backoff_at_max (cf : Config) (tm : Z) :
  MaxRedialTimeout cf <= tm -> redial_backoff cf tm = tm.
Proof.
  intros Hge. unfold redial_backoff.
  replace (MaxRedialTimeout cf >? tm) with false; [reflexivity|].
  symmetry. rewrite Z.gtb_ltb. apply Z.ltb_ge. exact Hge.
Qed.

Section DialFacts.

Variable h : host.

Lemma DialLoop_failure e rest diallm tm err err' w :
  diallm <> 0 -> on_dial w err = inl err' ->
  DialLoop h (AttemptFail e WaitElapsed :: rest) diallm tm err w
  = DialLoop h rest (int h (diallm - 1)) (redial_backoff (w_conf w) tm)
      (Some e) (after_failure tm w).
Proof.
  intros Hnz Hcb. cbn [DialLoop].
  replace (diallm =? 0) with false by (symmetry; apply Z.eqb_neq; exact Hnz).
  rewrite Hcb. unfold after_failure.
  change (w_conf (log (EvDialing (Address w)) w)) with (w_conf w).
  destruct (redial_backoff (w_conf w) tm >? 0); reflexivity.
Qed.

Lemma after_failure_same tm w :
  w_conn (after_failure tm w) = w_conn w
  /\ w_pool (after_failure tm w) = w_pool w
  /\ dial_attempts (after_failure tm w) = S (dial_attempts w).
Proof.
  unfold after_failure.
  change (w_conf (log (EvDialing (Address w)) w)) with (w_conf w).
  destruct (redial_backoff (w_conf w) tm >? 0);
    unfold dial_attempts, log; cbn [w_trace w_conn w_pool];
    rewrite !count_app; cbn; repeat split; lia.
Qed.

Lemma on_dial_accepting w err :
  accepting (w_conf w) -> exists err', on_dial w err = inl err'.
Proof.
  unfold accepting, on_dial. destruct (OnDial (w_conf w)) as [cb|].
  - intros Hcb. rewrite Hcb. eauto.
  - eauto.
Qed.

Lemma on_dial_same w1 w2 err :
  w_conn w1 = w_conn w2 -> w_pool w1 = w_pool w2 ->
  on_dial w1 err = on_dial w2 err.
Proof. unfold on_dial, w_conf. intros -> ->. reflexivity. Qed.

(** Failing dialings that do not use the counter up: each one is made,
    and the loop stands at the next dialing. *)
Lemma DialLoop_fails_on (errs : list goerr) :
  forall diallm tm err w,
    accepting (w_conf w) ->
    (diallm < 0 /\ min_int h <= diallm - Z.of_nat (length errs) - 1)
    \/ (Z.of_nat (length errs) < diallm <= max_int h) ->
    exists tm' err' w',
      DialLoop h (fails errs) diallm tm err w
      = (DialDialing (diallm - Z.of_nat (length errs) - 1) tm' err', w')
      /\ w_conn w' = w_conn w /\ w_pool w' = w_pool w
      /\ dial_attempts w' = (dial_attempts w + length errs)%nat.
Proof.
  pose proof (int_bits_pos h) as Hbits.
  assert (Hpow : 0 < 2 ^ (int_bits h - 1)) by (apply Z.pow_pos_nonneg; lia).
  induction errs as [|e errs IH]; intros diallm tm err w Hacc Hrange.
  - destruct (on_dial_accepting w err Hacc) as [err' Hcb].
    exists tm, err', w. cbn [fails map DialLoop].
    replace (diallm =? 0) with false by (symmetry; apply Z.eqb_neq; cbn in Hrange; lia).
    rewrite Hcb.
    rewrite int_id by (unfold min_int, max_int in *; cbn in Hrange; lia).
    cbn [length]. repeat split; try lia.
    f_equal. f_equal. lia.
  - destruct (on_dial_accepting w err Hacc) as [err' Hcb].
    cbn [length] in Hrange.
    change (fails (e :: errs)) with (AttemptFail e WaitElapsed :: fails errs).
    rewrite (DialLoop_failure e (fails errs) diallm tm err err') by (assumption || lia).
    rewrite int_id by (unfold min_int, max_int in *; lia).
    destruct (after_failure_same tm w) as (Hc & Hp & Hn).
    destruct (IH (diallm - 1) (redial_backoff (w_conf w) tm) (Some e)
                (after_failure tm w)) as (tm' & e' & w' & Hrun & Hc' & Hp' & Hn').
    { unfold w_conf. rewrite Hp. exact Hacc. }
    { lia. }
    exists tm', e', w'. rewrite Hrun. cbn [length].
    repeat split; try congruence; try lia.
    f_equal. f_equal. lia.
Qed.

(** Failing dialings that use the counter up: [diallm] of them are made,
    and the next turn of the loop returns on the limit. *)
Lemma DialLoop_fails_out (errs : list goerr) :
  forall diallm tm err w,
    accepting (w_conf w) ->
    0 <= diallm <= Z.of_nat (length errs) -> diallm <= max_int h ->
    exists w',
      DialLoop h (fails errs) diallm tm err w = (DialReturned ExitLimit, w')
      /\ w_conn w' = w_conn w /\ w_pool w' = w_pool w
      /\ dial_attempts w' = (dial_attempts w + Z.to_nat diallm)%nat.
Proof.
  pose proof (int_bits_pos h) as Hbits.
  assert (Hpow : 0 < 2 ^ (int_bits h - 1)) by (apply Z.pow_pos_nonneg; lia).
  induction errs as [|e errs IH]; intros diallm tm err w Hacc Hrange Hmax.
  - cbn [length] in Hrange. assert (diallm = 0) as -> by lia.
    exists w. repeat split. cbn. lia.
  - destruct (Z.eq_dec diallm 0) as [->|Hnz].
    + exists w. repeat split. cbn. lia.
    + destruct (on_dial_accepting w err Hacc) as [err' Hcb].
      cbn [length] in Hrange.
      change (fails (e :: errs)) with (AttemptFail e WaitElapsed :: fails errs).
      rewrite (DialLoop_failure e (fails errs) diallm tm err err') by assumption.
      rewrite int_id by (unfold min_int, max_int in *; lia).
      destruct (after_failure_same tm w) as (Hc & Hp & Hn).
      destruct (IH (diallm - 1) (redial_backoff (w_conf w) tm) (Some e)
                  (after_failure tm w)) as (w' & Hrun & Hc' & Hp' & Hn').
      { unfold w_conf. rewrite Hp. exact Hacc. }
      { lia. }
      { lia. }
      exists w'. rewrite Hrun. repeat split; try congruence. lia.
Qed.

End DialFacts.

Section DialBound.

Variable h : host.

Lemma dial_attempts_log e w :
  dial_attempts (log e w)
  = (dial_attempts w + if is_dialing e then 1 else 0)%nat.
Proof.
  unfold dial_attempts, log. cbn [w_trace]. rewrite count_app.
  destruct e; reflexivity.
Qed.

Lemma dial_attempts_triggerReadWrite k s w :
  dial_attempts (triggerReadWrite k s w) = dial_attempts w.
Proof.
  change (dial_attempts w) with (dial_attempts (updateConnection s w)).
  unfold triggerReadWrite.
  destruct k; rewrite ?dial_attempts_log; cbn [is_dialing]; lia.
Qed.

Lemma dial_attempts_Close w : dial_attempts (Close w) = dial_attempts w.
Proof.
  destruct (Close_trace w) as (evs & Htr & Hno).
  unfold dial_attempts. rewrite Htr, count_app.
  enough (count is_dialing evs = 0%nat) by lia.
  clear Htr. induction Hno as [|e evs He _ IH]; [reflexivity|].
  unfold count in *. cbn [List.filter].
  destruct e; cbn in He |- *; try discriminate; exact IH.
Qed.

(** Whatever the dialings meet, the dialings made and the counter left
    never add up to more than the counter the loop started from. *)
Lemma DialLoop_bound (atts : list attempt) :
  forall diallm tm err w st w',
    0 <= diallm <= max_int h ->
    DialLoop h atts diallm tm err w = (st, w') ->
    Z.of_nat (dial_attempts w') + counter st
    <= Z.of_nat (dial_attempts w) + diallm
    /\ 0 <= counter st <= max_int h.
Proof.
  pose proof (int_bits_pos h) as Hbits.
  assert (Hpow : 0 < 2 ^ (int_bits h - 1)) by (apply Z.pow_pos_nonneg; lia).
  unfold max_int.
  induction atts as [|a atts IH]; intros diallm tm err w st w' Hrange;
    cbn [DialLoop];
    (destruct (Z.eqb_spec diallm 0) as [->|Hnz];
     [intros [= <- <-]; cbn [counter]; lia|]);
    rewrite int_id by (unfold min_int, max_int in *; lia);
    (destruct (on_dial w err) as [err'|e'];
     [|intros [= <- <-]; cbn [counter]; lia]).
  - intros [= <- <-]. cbn [counter]. lia.
  - destruct a as [e k|s k].
    + set (w1 := log (EvDialing (Address w)) w).
      assert (Hw1 : dial_attempts w1 = S (dial_attempts w))
        by (unfold w1; rewrite dial_attempts_log; cbn; lia).
      destruct (redial_backoff (w_conf w1) tm >? 0), k.
      * intros Hrun. apply IH in Hrun; [|lia].
        rewrite dial_attempts_log in Hrun. cbn [is_dialing] in Hrun. lia.
      * intros [= <- <-]. cbn [counter]. lia.
      * intros Hrun. apply IH in Hrun; [|lia]. lia.
      * intros [= <- <-]. cbn [counter]. lia.
    + intros [= <- <-]. rewrite dial_attempts_triggerReadWrite.
      rewrite dial_attempts_log. cbn [counter is_dialing]. lia.
Qed.

Lemma TriggerLoop_bound (rounds : list round) :
  forall diallm w st w',
    0 <= diallm <= max_int h ->
    TriggerLoop h rounds diallm w = (st, w') ->
    Z.of_nat (dial_attempts w') + counter st
    <= Z.of_nat (dial_attempts w) + diallm
    /\ 0 <= counter st.
Proof.
  induction rounds as [|[err atts|] rounds IH]; intros diallm w st w' Hrange;
    cbn [TriggerLoop].
  - intros [= <- <-]. cbn [counter]. lia.
  - destruct (DialLoop h atts diallm (RedialTimeout (w_conf w)) err w)
      as [st1 w1] eqn:Hrun.
    apply DialLoop_bound in Hrun; [|exact Hrange].
    destruct st1 as [r|d|d tm' e'|d]; cbn [counter] in Hrun.
    + intros [= <- <-]. cbn [counter]. lia.
    + intros Hrest. apply IH in Hrest; lia.
    + intros [= <- <-]. cbn [counter]. lia.
    + intros [= <- <-]. cbn [counter]. lia.
  - intros [= <- <-]. cbn [counter]. lia.
Qed.

(** With a limit [N > 0], [dial] makes [N] dialings at most, whatever
    triggers, callbacks, successes and failures it meets. *)
Lemma dial_bound (rounds : list round) (N : Z) (w : World) st w' :
  0 < N <= max_int h ->
  dial h rounds N w = (st, w') ->
  (dial_attempts w' <= dial_attempts w + Z.to_nat N)%nat.
Proof.
  intros HN. unfold dial.
  replace (N =? 0) with false by (symmetry; apply Z.eqb_neq; lia).
  destruct (TriggerLoop h rounds N w) as [st1 w1] eqn:Hrun.
  apply TriggerLoop_bound in Hrun; [|lia].
  destruct st1 as [r|d|d tm' e'|d]; intros [= <- <-];
    rewrite ?dial_attempts_Close; cbn [counter] in Hrun; lia.
Qed.

End DialBound.

(** With [RedialTimeout] above [MaxRedialTimeout] the timeout after a failed
    dialing stays above [MaxRedialTimeout]; and with [RedialTimeout = 0] and
    [MaxRedialTimeout] of 50 ms the timeout after the first failed dialing is
    50 ms, not 100 ms, in the loop as well. *)
Lemma redial_backoff_counterexample :
  redial_backoff (conf_redial (5 * Second) Second)
    (RedialTimeout (conf_redial (5 * Second) Second)) = 5 * Second
  /\ 5 * Second > MaxRedialTimeout (conf_redial (5 * Second) Second)
  /\ redial_backoff (conf_redial 0 (50 * Millisecond))
       (RedialTimeout (conf_redial 0 (50 * Millisecond))) = 50 * Millisecond
  /\ 50 * Millisecond <> 100 * Millisecond
  /\ fst (dial Host64 [RoundTrigger None [AttemptFail refused WaitElapsed]]
            (DialsLimit (conf_redial 0 (50 * Millisecond)))
            (outgoing_world (conf_redial 0 (50 * Millisecond))))
     = DialDialing (-3) (50 * Millisecond) (Some refused).
Proof.
  split; [reflexivity|]. split; [reflexivity|]. split; [reflexivity|].
  split; [discriminate|]. reflexivity.
Qed.

(** C2, amended: after a failed dialing, a timeout below
    [MaxRedialTimeout] becomes 100 ms if it is zero and doubles otherwise,
    and is then cut to [MaxRedialTimeout]; a timeout at or above
    [MaxRedialTimeout] stays as it is (so a [RedialTimeout] above
    [MaxRedialTimeout] is never cut); hence with [RedialTimeout = 0] the
    timeout after the first failed dialing is the smaller of 100 ms and
    [MaxRedialTimeout]. This is the timeout the loop goes on with. (For
    timeouts below [2^62] ns, whose double is an [int64].) *)
Theorem redial_backoff_growth (cf : Config) (tm : Z) :
  0 <= tm < 2 ^ 62 ->
  (tm < MaxRedialTimeout cf ->
   redial_backoff cf tm
   = Z.min (if tm =? 0 then 100 * Millisecond else 2 * tm) (MaxRedialTimeout cf))
  /\ (MaxRedialTimeout cf <= tm -> redial_backoff cf tm = tm)
  /\ (tm <= MaxRedialTimeout cf -> redial_backoff cf tm <= MaxRedialTimeout cf)
  /\ (RedialTimeout cf = 0 -> 0 <= MaxRedialTimeout cf ->
      redial_backoff cf (RedialTimeout cf)
      = Z.min (100 * Millisecond) (MaxRedialTimeout cf))
  /\ (forall h e rest diallm err w,
         w_conf w = cf -> accepting cf -> diallm <> 0 ->
         DialLoop h (AttemptFail e WaitElapsed :: rest) diallm tm err w
         = DialLoop h rest (int h (diallm - 1)) (redial_backoff cf tm)
             (Some e) (after_failure tm w)).
Proof.
  intros Htm. split; [|split; [|split; [|split]]].
  - intros Hlt. apply redial_backoff_below; assumption.
  - apply redial_backoff_at_max.
  - intros Hle. destruct (Z.eq_dec tm (MaxRedialTimeout cf)) as [Heq|Hne].
    + rewrite redial_backoff_at_max; lia.
    + rewrite redial_backoff_below by lia. lia.
  - intros -> Hmax.
    destruct (Z.eq_dec (MaxRedialTimeout cf) 0) as [Heq|Hne].
    + rewrite redial_backoff_at_max by lia. rewrite Heq. reflexivity.
    + rewrite redial_backoff_below by lia. reflexivity.
  - intros h e rest diallm err w <- Hacc Hnz.
    destruct (on_dial_accepting w err Hacc) as [err' Hcb].
    apply DialLoop_failure with (err' := err'); assumption.
Qed.

Lemma redial_backoff_growth_witness :
  redial_backoff (conf_redial 0 (5 * Second)) (400 * Millisecond)
  = Z.min (2 * (400 * Millisecond)) (5 * Second)
  /\ redial_backoff (conf_redial 0 (5 * Second)) 0
     = Z.min (100 * Millisecond) (5 * Second)
  /\ redial_backoff (conf_redial 0 (5 * Second)) (4 * Second) = 5 * Second.
Proof.
  split; [|split].
  - apply (redial_backoff_growth (conf_redial 0 (5 * Second)) (400 * Millisecond)).
    + split; [discriminate | reflexivity].
    + reflexivity.
  - apply (redial_backoff_growth (conf_redial 0 (5 * Second)) (400 * Millisecond)).
    + split; [discriminate | reflexivity].
    + reflexivity.
    + discriminate.
  - reflexivity.
Defined.

Section DialWrap.

Variable h : host.

Lemma int_range (x : Z) : min_int h <= int h x <= max_int h.
Proof.
  unfold int, wrap_signed, min_int, max_int.
  pose proof (int_bits_pos h) as Hbits.
  assert (Hpow : 0 < 2 ^ (int_bits h - 1)) by (apply Z.pow_pos_nonneg; lia).
  assert (E : 2 ^ int_bits h = 2 * 2 ^ (int_bits h - 1)).
  { replace (int_bits h) with (Z.succ (int_bits h - 1)) at 1 by lia.
    apply Z.pow_succ_r. lia. }
  pose proof (Z.mod_pos_bound (x + 2 ^ (int_bits h - 1)) (2 ^ int_bits h)).
  lia.
Qed.

(** Counting down in [int] is counting down modulo [2^bits]. *)
Lemma int_minus_idemp (x y : Z) : int h (int h x - y) = int h (x - y).
Proof.
  unfold int, wrap_signed. f_equal.
  replace ((x + 2 ^ (int_bits h - 1)) mod 2 ^ int_bits h
           - 2 ^ (int_bits h - 1) - y + 2 ^ (int_bits h - 1))
    with ((x + 2 ^ (int_bits h - 1)) mod 2 ^ int_bits h - y) by lia.
  rewrite Zminus_mod_idemp_l. f_equal. lia.
Qed.

Lemma int_zero (x : Z) : int h x = 0 -> x mod 2 ^ int_bits h = 0.
Proof.
  unfold int, wrap_signed. intros Hz.
  replace x with (x + 2 ^ (int_bits h - 1) - 2 ^ (int_bits h - 1)) by lia.
  rewrite <- Zminus_mod_idemp_l.
  replace ((x + 2 ^ (int_bits h - 1)) mod 2 ^ int_bits h)
    with (2 ^ (int_bits h - 1)) by lia.
  rewrite Z.sub_diag. apply Z.mod_0_l.
  pose proof (int_bits_pos h). apply Z.pow_nonzero; lia.
Qed.

(** The counter that starts at -1 does not meet zero before [2^bits - 1]
    dialings have been counted, and meets it then. *)
Lemma counter_from_minus_one (j : Z) :
  0 <= j < 2 ^ int_bits h - 1 -> int h (- 1 - j) <> 0.
Proof.
  intros Hj Hz. apply int_zero in Hz.
  replace (- 1 - j) with (2 ^ int_bits h - 1 - j + (- 1) * 2 ^ int_bits h) in Hz
    by lia.
  rewrite Z.mod_add in Hz by lia. rewrite Z.mod_small in Hz; lia.
Qed.

Lemma counter_comes_round : int h (- 1 - (2 ^ int_bits h - 1)) = 0.
Proof. destruct h; reflexivity. Qed.

(** Failing dialings, the counter going down in [int] from [diallm] and
    meeting zero before none of them: each one is made, and the loop stands
    at its next turn with the counter at [int (diallm - k)], [k] the number
    of the dialings. *)
Lemma DialLoop_fails_counter (errs : list goerr) :
  forall diallm tm err w,
    accepting (w_conf w) ->
    min_int h <= diallm <= max_int h ->
    (forall j, 0 <= j < Z.of_nat (length errs) -> int h (diallm - j) <> 0) ->
    exists tm' err' w',
      DialLoop h (fails errs) diallm tm err w
      = DialLoop h [] (int h (diallm - Z.of_nat (length errs))) tm' err' w'
      /\ w_conn w' = w_conn w /\ w_pool w' = w_pool w
      /\ dial_attempts w' = (dial_attempts w + length errs)%nat.
Proof.
  induction errs as [|e errs IH]; intros diallm tm err w Hacc Hrange Hnz.
  - exists tm, err, w. cbn [fails map length]. rewrite Z.sub_0_r.
    rewrite int_id by exact Hrange. repeat split. lia.
  - destruct (on_dial_accepting w err Hacc) as [err' Hcb].
    assert (Hfirst : diallm <> 0).
    { specialize (Hnz 0). rewrite Z.sub_0_r, int_id in Hnz by exact Hrange.
      apply Hnz. cbn [length]. lia. }
    change (fails (e :: errs)) with (AttemptFail e WaitElapsed :: fails errs).
    rewrite (DialLoop_failure h e (fails errs) diallm tm err err')
      by assumption.
    destruct (after_failure_same tm w) as (Hc & Hp & Hn).
    destruct (IH (int h (diallm - 1)) (redial_backoff (w_conf w) tm) (Some e)
                (after_failure tm w)) as (tm' & e' & w' & Hrun & Hc' & Hp' & Hn').
    { unfold w_conf. rewrite Hp. exact Hacc. }
    { apply int_range. }
    { intros j Hj. rewrite int_minus_idemp.
      replace (diallm - 1 - j) with (diallm - (j + 1)) by lia.
      apply Hnz. cbn [length]. lia. }
    exists tm', e', w'. rewrite Hrun, int_minus_idemp.
    replace (diallm - 1 - Z.of_nat (length errs))
      with (diallm - Z.of_nat (length (e :: errs))) by (cbn [length]; lia).
    repeat split; try congruence. cbn [length]. lia.
Qed.

(** With [DialsLimit = 0], dialings that fail [2^bits - 1] times in a row:
    all of them are made, the counter has come round to zero, and the next
    turn of the loop returns on the limit; [dial] closes the connection. *)
Lemma dial_zero_limit_comes_round (errs : list goerr) (err : error) (w : World) :
  accepting (w_conf w) ->
  Z.of_nat (length errs) = 2 ^ int_bits h - 1 ->
  exists w1,
    dial h [RoundTrigger err (fails errs)] 0 w = (DialReturned ExitLimit, Close w1)
    /\ w_conn w1 = w_conn w /\ w_pool w1 = w_pool w
    /\ dial_attempts w1 = (dial_attempts w + length errs)%nat.
Proof.
  intros Hacc Hlen.
  pose proof (int_bits_pos h) as Hbits.
  assert (Hpow : 0 < 2 ^ (int_bits h - 1)) by (apply Z.pow_pos_nonneg; lia).
  unfold dial. cbn [Z.eqb TriggerLoop].
  rewrite (int_id h (0 - 1)) by (unfold min_int, max_int; lia).
  destruct (DialLoop_fails_counter errs (0 - 1) (RedialTimeout (w_conf w)) err w
              Hacc) as (tm' & err' & w1 & Hrun & Hc & Hp & Hn).
  { unfold min_int, max_int. lia. }
  { intros j Hj. apply counter_from_minus_one. lia. }
  rewrite Hrun, Hlen.
  change (0 - 1 - (2 ^ int_bits h - 1)) with (- 1 - (2 ^ int_bits h - 1)).
  rewrite counter_comes_round. cbn [DialLoop Z.eqb].
  exists w1. repeat split; assumption.
Qed.

End DialWrap.

Lemma refusals_length (h : host) :
  Z.of_nat (length (refusals h)) = 2 ^ int_bits h - 1.
Proof.
  unfold refusals. rewrite repeat_length. apply Z2Nat.id.
  destruct h; discriminate.
Qed.

(** C3, at [DialsLimit = 0]: an outgoing connection to an address that
    refuses, the pool configured with [DialsLimit = 0] and no redial
    timeouts. After [2^bits - 1] refused dialings in a row ([2^32 - 1] where
    [int] has 32 bits) the counter, started at -1 and decremented at every
    dialing, has come round to zero: the next turn of the loop takes it for
    a limit used up, and [dial] returns and closes the connection, although
    the dialings were to go on without end. *)
Theorem dials_limit_zero_runs_out (h : host) :
  DialsLimit (w_conf (outgoing_world (conf_dials 0))) = 0
  /\ isClosed (outgoing_world (conf_dials 0)) = false
  /\ Z.of_nat (length (refusals h)) = 2 ^ int_bits h - 1
  /\ exists w',
       dial h [RoundTrigger None (fails (refusals h))]
         (DialsLimit (w_conf (outgoing_world (conf_dials 0))))
         (outgoing_world (conf_dials 0))
       = (DialReturned ExitLimit, w')
       /\ dial_attempts w' = length (refusals h)
       /\ isClosed w' = true
       /\ conns (w_pool w') !! "127.0.0.1:9" = None
       /\ In EvCloseChan (w_trace w').
Proof.
  split; [reflexivity|]. split; [reflexivity|].
  split; [apply refusals_length|].
  destruct (dial_zero_limit_comes_round h (refusals h) None
              (outgoing_world (conf_dials 0)) I (refusals_length h))
    as (w1 & Hrun & Hc & Hp & Hn).
  destruct (Close_closes w1) as (Hcl & Hreg & Hev).
  { rewrite Hc. reflexivity. }
  exists (Close w1). split; [exact Hrun|]. split; [|split; [|split]].
  - rewrite dial_attempts_Close. exact Hn.
  - exact Hcl.
  - replace "127.0.0.1:9" with (Address w1) by (unfold Address; rewrite Hc; reflexivity).
    exact Hreg.
  - exact Hev.
Qed.

(** * Further properties of the code *)

(** ** Package [cxds]: reference counts and key increments *)

Lemma be_value_snoc (q : list byte) (x : byte) :
  be_value (q ++ [x]) = be_value q * 256 + byte_to_Z x.
Proof. unfold be_value. rewrite fold_left_app. reflexivity. Qed.

Lemma be_value_bound (b : list byte) :
  0 <= be_value b < 256 ^ Z.of_nat (length b).
Proof.
  induction b as [|x q IH] using rev_ind; [cbn; lia|].
  rewrite be_value_snoc, length_app. cbn [length].
  replace (Z.of_nat (length q + 1)) with (Z.succ (Z.of_nat (length q))) by lia.
  rewrite Z.pow_succ_r by lia.
  pose proof (byte_to_Z_range x). lia.
Qed.

(** The loop of [incSlice] does not look beyond the index it stands at. *)
Lemma incSlice_from_app (p : list byte) :
  forall suf, incSlice_from (length p) (p ++ suf)
              = incSlice_from (length p) p ++ suf.
Proof.
  induction p as [|x q IH] using rev_ind; intros suf; [reflexivity|].
  rewrite length_app. cbn [length].
  replace (length q + 1)%nat with (S (length q)) by lia.
  cbn [incSlice_from].
  rewrite <- app_assoc. cbn [app].
  rewrite !list_lookup_middle by reflexivity.
  destruct (Byte.eqb x Byte.xff).
  - replace (<[length q:=Byte.x00]> (q ++ x :: suf)) with (q ++ Byte.x00 :: suf)
      by (rewrite insert_app_r_alt, Nat.sub_diag by lia; reflexivity).
    replace (<[length q:=Byte.x00]> (q ++ [x])) with (q ++ [Byte.x00])
      by (rewrite insert_app_r_alt, Nat.sub_diag by lia; reflexivity).
    rewrite (IH (Byte.x00 :: suf)), (IH [Byte.x00]), <- app_assoc. reflexivity.
  - rewrite !insert_app_r_alt, !Nat.sub_diag by lia. cbn.
    rewrite <- app_assoc. reflexivity.
Qed.

Lemma incSlice_snoc (q : list byte) (x : byte) :
  incSlice (q ++ [x])
  = if Byte.eqb x Byte.xff then incSlice q ++ [Byte.x00]
    else q ++ [byte_of_Z (byte_to_Z x + 1)].
Proof.
  unfold incSlice. rewrite length_app. cbn [length].
  replace (length q + 1)%nat with (S (length q)) by lia.
  cbn [incSlice_from]. rewrite list_lookup_middle by reflexivity.
  rewrite !insert_app_r_alt, !Nat.sub_diag by lia. cbn [insert list_insert].
  destruct (Byte.eqb x Byte.xff); [|reflexivity].
  apply incSlice_from_app.
Qed.

Lemma byte_to_Z_xff (x : byte) : byte_to_Z x = 255 <-> x = Byte.xff.
Proof.
  split; [|intros ->; reflexivity].
  intros H. unfold byte_to_Z in H.
  assert (E : Byte.to_N x = Byte.to_N Byte.xff) by (cbn; lia).
  pose proof (Byte.of_to_N x) as Hx. rewrite E in Hx.
  rewrite Byte.of_to_N in Hx. congruence.
Qed.

(** X1: [incSlice] keeps the length of the slice and adds one to the number
    the slice spells (most significant byte first), modulo [256 ^ len]: a
    slice of [0xff] bytes only becomes all zero, and the empty slice stays
    empty. *)
Theorem incSlice_increments (b : list byte) :
  length (incSlice b) = length b
  /\ be_value (incSlice b) = (be_value b + 1) mod 256 ^ Z.of_nat (length b).
Proof.
  induction b as [|x q [IHlen IHval]] using rev_ind; [split; reflexivity|].
  rewrite incSlice_snoc.
  assert (Hpow : 256 ^ Z.of_nat (length (q ++ [x]))
                 = 256 * 256 ^ Z.of_nat (length q)).
  { rewrite length_app. cbn [length].
    replace (Z.of_nat (length q + 1)) with (Z.succ (Z.of_nat (length q))) by lia.
    apply Z.pow_succ_r. lia. }
  pose proof (be_value_bound q) as Hq.
  pose proof (byte_to_Z_range x) as Hx.
  destruct (Byte.eqb x Byte.xff) eqn:E.
  - apply Byte.byte_dec_bl in E. subst x. split.
    + rewrite !length_app, IHlen. reflexivity.
    + rewrite !be_value_snoc, IHval, Hpow.
      change (byte_to_Z Byte.x00) with 0. change (byte_to_Z Byte.xff) with 255.
      replace (be_value q * 256 + 255 + 1) with (256 * (be_value q + 1)) by lia.
      rewrite Z.mul_mod_distr_l by lia. lia.
  - apply Byte.eqb_false in E.
    assert (byte_to_Z x <> 255) by (intros H; apply byte_to_Z_xff in H; auto).
    split.
    + rewrite !length_app. reflexivity.
    + rewrite !be_value_snoc, byte_to_of_Z, Hpow.
      rewrite (Z.mod_small (byte_to_Z x + 1)) by lia.
      rewrite Z.mod_small by lia. lia.
Qed.

(** X2: on a value of four bytes at least, [setRefsCount] then
    [getRefsCount] gives the count back, and [setRefsCount] keeps the length
    of the value and every byte after the fourth; on a shorter value both
    panic. *)
Theorem refs_count_roundtrip (val : list byte) (rc : Z) :
  0 <= rc < 2 ^ 32 ->
  ((4 <= length val)%nat ->
   exists val',
     setRefsCount val rc = Some val'
     /\ getRefsCount val' = Some rc
     /\ length val' = length val
     /\ drop 4 val' = drop 4 val)
  /\ ((length val < 4)%nat ->
      setRefsCount val rc = None /\ getRefsCount val = None).
Proof.
  intros Hrc. split; intros Hlen.
  - exists (be_put_uint32 rc ++ drop 4 val).
    unfold setRefsCount, getRefsCount.
    replace (length val <? 4)%nat with false
      by (symmetry; apply Nat.ltb_ge; exact Hlen).
    rewrite length_app, length_drop. cbn [be_put_uint32 length].
    replace (4 + (length val - 4) <? 4)%nat with false
      by (symmetry; apply Nat.ltb_ge; lia).
    repeat split.
    + f_equal.
      change (be_uint32 (be_put_uint32 rc ++ drop 4 val))
        with (be_uint32 (be_put_uint32 rc)).
      rewrite be_uint32_put. apply uint32_id. exact Hrc.
    + lia.
  - unfold setRefsCount, getRefsCount.
    replace (length val <? 4)%nat with true
      by (symmetry; apply Nat.ltb_lt; exact Hlen).
    split; reflexivity.
Qed.

Lemma refs_count_roundtrip_witness :
  (exists val',
      setRefsCount [Byte.x00; Byte.x00; Byte.x00; Byte.x01; Byte.xaa; Byte.xbb] 513
      = Some val'
      /\ getRefsCount val' = Some 513
      /\ length val' = 6%nat
      /\ drop 4 val' = [Byte.xaa; Byte.xbb])
  /\ setRefsCount [Byte.x00; Byte.x01] 513 = None
  /\ getRefsCount [Byte.x00; Byte.x01] = None.
Proof.
  split.
  - apply (refs_count_roundtrip
             [Byte.x00; Byte.x00; Byte.x00; Byte.x01; Byte.xaa; Byte.xbb] 513).
    + split; [discriminate | reflexivity].
    + cbn. lia.
  - apply (refs_count_roundtrip [Byte.x00; Byte.x01] 513).
    + split; [discriminate | reflexivity].
    + cbn. lia.
Defined.

(** ** Streams of frames *)

Section Frames.

Variable h : host.
Variable cf : Config.
Variable obs : nat -> frame_obs.
Hypothesis Hobs : forall i, obs i = mkFrameObs false EnqueueSent.

Lemma frame_of_length (body : list byte) :
  length (frame_of body) = (4 + length body)%nat.
Proof. unfold frame_of. rewrite length_app. reflexivity. Qed.

Lemma frames_of_length (bodies : list (list byte)) :
  (length bodies <= length (frames_of bodies))%nat.
Proof.
  induction bodies as [|b bs IH]; [reflexivity|].
  unfold frames_of in *. cbn [map concat].
  rewrite length_app, frame_of_length. cbn [length]. lia.
Qed.

Lemma ReadFull_head (a rest : list byte) (flt : goerr) :
  length a = 4%nat ->
  ReadFull (mkReader (a ++ rest) flt) 4 = (mkReader rest flt, inl a).
Proof. intros <-. apply ReadFull_app. Qed.

Lemma read_frame_of (body rest : list byte) (flt : goerr) :
  fits h cf body ->
  read_frame h cf (mkReader (frame_of body ++ rest) flt)
  = StepFrame body (mkReader rest flt).
Proof.
  intros (Hsize & H32 & Hint). unfold frame_of. rewrite <- app_assoc.
  apply read_frame_ok; [reflexivity | apply head_announces_len; assumption
                       | exact Hsize].
Qed.

(** Whole frames, then a tail at which a turn of [ReadLoop] stops: the
    bodies of the frames are enqueued, in order, and the loop is left the
    way the tail makes it. *)
Lemma ReadLoop_frames_then (tail : list byte) (flt : goerr) (x : read_exit) :
  (forall i fuel, ReadLoop (S fuel) h cf obs i (mkReader tail flt) = Some ([], x)) ->
  forall bodies fuel i,
    Forall (fits h cf) bodies ->
    (length bodies < fuel)%nat ->
    ReadLoop fuel h cf obs i (mkReader (frames_of bodies ++ tail) flt)
    = Some (bodies, x).
Proof.
  intros Htail bodies.
  induction bodies as [|b bs IH]; intros fuel i Hfit Hfuel.
  - destruct fuel as [|fuel]; [lia|]. apply Htail.
  - destruct fuel as [|fuel]; [cbn in Hfuel; lia|].
    inversion Hfit as [|? ? Hb Hbs]; subst.
    unfold frames_of. cbn [map concat]. rewrite <- app_assoc.
    cbn [ReadLoop]. rewrite read_frame_of by exact Hb.
    rewrite Hobs. cbn [on_enqueue].
    fold (frames_of bs). rewrite IH; [reflexivity | exact Hbs |].
    cbn [length] in Hfuel. lia.
Qed.

Lemma ReadLoop_on_error (r : reader) (e : goerr) :
  read_frame h cf r = StepReadError e ->
  forall i fuel, ReadLoop (S fuel) h cf obs i r = Some ([], ReadRedial e).
Proof.
  intros Hr i fuel. cbn [ReadLoop]. rewrite Hr, Hobs. reflexivity.
Qed.

(** A frame cut after [n] of its bytes: the turn of [ReadLoop] fails, with
    the error of the stream itself if the cut falls before the head or
    right after it, and with [io.ErrUnexpectedEOF] in place of [io.EOF]
    otherwise. *)
Lemma read_frame_cut (body : list byte) (n : nat) (flt : goerr) :
  fits h cf body ->
  (n < length (frame_of body))%nat ->
  read_frame h cf (mkReader (take n (frame_of body)) flt)
  = StepReadError
      (short_read (if (n <? 4)%nat then take n (frame_of body)
                   else take (n - 4) body) flt).
Proof.
  intros (Hsize & H32 & Hint) Hn. rewrite frame_of_length in Hn.
  unfold frame_of in *.
  set (head := le_put_uint32 (uint32 (len body))) in *.
  assert (Hhead : length head = 4%nat) by reflexivity.
  destruct (Nat.ltb_spec n 4) as [Hlt|Hge].
  - unfold read_frame, ReadFull. cbn [pending fault].
    replace (4 <=? length (take n (head ++ body)))%nat with false
      by (symmetry; apply Nat.leb_gt; rewrite length_take; lia).
    unfold short_read.
    destruct (take n (head ++ body)); [reflexivity | destruct flt; reflexivity].
  - replace (take n (head ++ body)) with (head ++ take (n - 4) body)
      by (rewrite take_app, (take_ge head) by (rewrite Hhead; lia);
          rewrite Hhead; reflexivity).
    unfold read_frame. rewrite ReadFull_head by exact Hhead.
    unfold head. rewrite head_announces_len by assumption.
    replace (len body <? 0) with false
      by (symmetry; apply Z.ltb_ge; unfold len; lia).
    fold (oversize cf (len body)). rewrite Hsize.
    unfold ReadFull. cbn [pending fault]. unfold len. rewrite Nat2Z.id.
    replace (length body <=? length (take (n - 4) body))%nat with false
      by (symmetry; apply Nat.leb_gt; rewrite length_take; lia).
    unfold short_read.
    destruct (take (n - 4) body); [reflexivity | destruct flt; reflexivity].
Qed.

End Frames.

(** X3: a stream that carries whole frames of fitting bodies and then
    ends: [ReadLoop] enqueues exactly these bodies, in their order, and then
    starts a recovery with the error the stream ended with (the fuel of the
    model is never used up). *)
Theorem read_stream_of_frames (h : host) (cf : Config) (obs : nat -> frame_obs)
    (bodies : list (list byte)) (flt : goerr) :
  (forall i, obs i = mkFrameObs false EnqueueSent) ->
  Forall (fits h cf) bodies ->
  read_stream h cf obs (mkReader (frames_of bodies) flt)
  = Some (bodies, ReadRedial flt).
Proof.
  intros Hobs Hfit. unfold read_stream. cbn [pending].
  rewrite <- (app_nil_r (frames_of bodies)) at 2.
  apply ReadLoop_frames_then; [exact Hobs | | exact Hfit |].
  - intros i fuel. apply ReadLoop_on_error; [exact Hobs | reflexivity].
  - pose proof (frames_of_length bodies). lia.
Qed.

Lemma read_stream_of_frames_witness :
  read_stream Host32 (conf_max 2) (fun _ => mkFrameObs false EnqueueSent)
    (mkReader (frames_of [[Byte.x01; Byte.x02]; []; [Byte.x03]]) ErrEOF)
  = Some ([[Byte.x01; Byte.x02]; []; [Byte.x03]], ReadRedial ErrEOF).
Proof.
  apply read_stream_of_frames.
  - reflexivity.
  - repeat constructor; discriminate.
Defined.

(** X4: a stream cut inside a frame, after [n] bytes of it: the bodies of
    the whole frames before the cut are enqueued and the cut frame is lost;
    the recovery is started with [io.ErrUnexpectedEOF] when the stream ended
    with [io.EOF], except that a cut right after the four bytes of the head
    (as a cut at a frame boundary) leaves [io.EOF]. *)
Theorem read_stream_cut (h : host) (cf : Config) (obs : nat -> frame_obs)
    (bodies : list (list byte)) (body : list byte) (n : nat) (flt : goerr) :
  (forall i, obs i = mkFrameObs false EnqueueSent) ->
  Forall (fits h cf) bodies ->
  fits h cf body ->
  (n < length (frame_of body))%nat ->
  read_stream h cf obs
    (mkReader (frames_of bodies ++ take n (frame_of body)) flt)
  = Some (bodies,
          ReadRedial (short_read (if (n <? 4)%nat then take n (frame_of body)
                                  else take (n - 4) body) flt)).
Proof.
  intros Hobs Hfit Hbody Hn. unfold read_stream. cbn [pending].
  apply ReadLoop_frames_then; [exact Hobs | | exact Hfit |].
  - intros i fuel. apply ReadLoop_on_error; [exact Hobs|].
    apply read_frame_cut; assumption.
  - pose proof (frames_of_length bodies). rewrite length_app. lia.
Qed.

Lemma read_stream_cut_witness :
  read_stream Host64 (conf_max 0) (fun _ => mkFrameObs false EnqueueSent)
    (mkReader (frames_of [[Byte.x01]] ++ take 4 (frame_of [Byte.x02; Byte.x03]))
       ErrEOF)
  = Some ([[Byte.x01]], ReadRedial ErrEOF)
  /\ read_stream Host64 (conf_max 0) (fun _ => mkFrameObs false EnqueueSent)
       (mkReader (frames_of [[Byte.x01]] ++ take 5 (frame_of [Byte.x02; Byte.x03]))
          ErrEOF)
     = Some ([[Byte.x01]], ReadRedial ErrUnexpectedEOF).
Proof.
  split.
  - apply (read_stream_cut Host64 (conf_max 0) _ [[Byte.x01]]
             [Byte.x02; Byte.x03] 4 ErrEOF).
    + reflexivity.
    + repeat constructor; discriminate.
    + repeat constructor; discriminate.
    + cbn. lia.
  - apply (read_stream_cut Host64 (conf_max 0) _ [[Byte.x01]]
             [Byte.x02; Byte.x03] 5 ErrEOF).
    + reflexivity.
    + repeat constructor; discriminate.
    + repeat constructor; discriminate.
    + cbn. lia.
Defined.

(** ** The write activity *)

(** X5: whatever the writer does, [writeMsg] adds to its output a prefix of
    the frame of the body and nothing else; the prefix is the whole frame
    when it reports neither [terminate] nor an error; and when it reports an
    error, [terminate] is the answer of [isClosed()]. *)
Theorem writeMsg_writes_prefix (cf : Config) (is_closed : bool) (w : writer)
    (body : list byte) :
  exists p,
    w_out (snd (writeMsg cf is_closed w body)) = w_out w ++ p
    /\ p `prefix_of` frame_of body
    /\ (fst (writeMsg cf is_closed w body) = (false, None) ->
        p = frame_of body)
    /\ (forall e, snd (fst (writeMsg cf is_closed w body)) = Some e ->
                  fst (fst (writeMsg cf is_closed w body)) = is_closed).
Proof.
  unfold writeMsg, frame_of, Write.
  set (head := le_put_uint32 (uint32 (len body))).
  destruct (_ && _).
  - exists []. cbn. rewrite app_nil_r.
    repeat split; [apply prefix_nil | discriminate | discriminate].
  - destruct (w_script w) as [|[|n e] rest]; cbn [w_script w_out].
    + exists (head ++ body). cbn. rewrite <- app_assoc.
      repeat split; [reflexivity | discriminate].
    + destruct rest as [|[|n e] rest]; cbn [w_script w_out fst snd].
      * exists (head ++ body). rewrite <- app_assoc.
        repeat split; [reflexivity | discriminate].
      * exists (head ++ body). rewrite <- app_assoc.
        repeat split; [reflexivity | discriminate].
      * exists (head ++ take n body). rewrite <- app_assoc.
        repeat split; [|discriminate].
        apply prefix_app, prefix_take.
    + exists (take n head). cbn [fst snd w_out].
      repeat split; [|discriminate].
      apply prefix_app_r, prefix_take.
Qed.

Section WriteFacts.

Variable cf : Config.

Lemma write_bodies_within (is_closed : bool) (bodies : list (list byte)) :
  forall out,
    Forall (fun b => oversize cf (len b) = false) bodies ->
    write_bodies cf is_closed (mkWriter out []) bodies
    = (WriteDone, mkWriter (out ++ frames_of bodies) []).
Proof.
  induction bodies as [|b bs IH]; intros out Hin.
  - cbn. rewrite app_nil_r. reflexivity.
  - inversion Hin as [|? ? Hb Hbs]; subst.
    cbn [write_bodies]. rewrite writeMsg_ok by exact Hb.
    rewrite IH by exact Hbs. unfold frames_of. cbn [map concat].
    fold (frame_of b). rewrite <- !app_assoc. reflexivity.
Qed.

Lemma write_bodies_oversize (is_closed : bool) (pre post : list (list byte))
    (big : list byte) (out : list byte) :
  Forall (fun b => oversize cf (len b) = false) pre ->
  oversize cf (len big) = true ->
  write_bodies cf is_closed (mkWriter out []) (pre ++ big :: post)
  = (WriteTerminate, mkWriter (out ++ frames_of pre) []).
Proof.
  revert out. induction pre as [|b bs IH]; intros out Hin Hbig.
  - cbn [app write_bodies]. rewrite writeMsg_oversize by exact Hbig.
    cbn. rewrite app_nil_r. reflexivity.
  - inversion Hin as [|? ? Hb Hbs]; subst.
    cbn [app write_bodies]. rewrite writeMsg_ok by exact Hb.
    rewrite IH by assumption. unfold frames_of. cbn [map concat].
    fold (frame_of b). rewrite <- !app_assoc. reflexivity.
Qed.

(** Turns that only send, over a writer that does not fail: the frames of
    all that is dequeued are written, in order, the flush at the end of each
    turn (if the writer is buffered) has put them on the stream, and the
    loop goes on. *)
Lemma WriteLoop_sending (buffered : bool) (turns rest : list write_turn) :
  forall out,
    Forall sending turns ->
    Forall (fun b => oversize cf (len b) = false) (dequeued turns) ->
    WriteLoop cf buffered (turns ++ rest) (mkWriter out []) out
    = WriteLoop cf buffered rest
        (mkWriter (out ++ frames_of (dequeued turns)) [])
        (out ++ frames_of (dequeued turns)).
Proof.
  induction turns as [|t turns IH]; intros out Hsend Hin.
  - cbn. rewrite app_nil_r. reflexivity.
  - inversion Hsend as [|? ? Ht Hts]; subst.
    destruct t as [cl first more [e|]| |]; try contradiction.
    cbn [dequeued] in Hin. apply Forall_app in Hin as [Hnow Hlater].
    cbn [app WriteLoop]. rewrite write_bodies_within by exact Hnow.
    cbn [w_out].
    assert (Hgo : WriteLoop cf buffered (turns ++ rest)
                    (mkWriter (out ++ frames_of (first :: more)) [])
                    (out ++ frames_of (first :: more))
                  = WriteLoop cf buffered rest
                      (mkWriter (out ++ frames_of (dequeued (TurnSend cl first more None :: turns))) [])
                      (out ++ frames_of (dequeued (TurnSend cl first more None :: turns)))).
    { rewrite IH by assumption. cbn [dequeued]. unfold frames_of.
      rewrite map_app, concat_app, <- !app_assoc. reflexivity. }
    destruct buffered; exact Hgo.
Qed.

End WriteFacts.

(** X12: over a stream that does not fail, what [WriteLoop] dequeues (in
    turns that only send, every body fitting) is written as the frames of
    the bodies in the order of dequeueing, and all of it has reached the
    stream when the loop waits again, whether the writer is buffered (each
    turn ends in a flush) or not; and [ReadLoop] over these bytes enqueues
    the same bodies in the same order. *)
Theorem write_then_read (h : host) (cf : Config) (buffered : bool)
    (turns : list write_turn) (out : list byte) (obs : nat -> frame_obs)
    (flt : goerr) :
  Forall sending turns ->
  Forall (fits h cf) (dequeued turns) ->
  (forall i, obs i = mkFrameObs false EnqueueSent) ->
  WriteLoop cf buffered turns (mkWriter out []) out
  = (WriteWaiting, mkWriter (out ++ frames_of (dequeued turns)) [],
     out ++ frames_of (dequeued turns))
  /\ read_stream h cf obs (mkReader (frames_of (dequeued turns)) flt)
     = Some (dequeued turns, ReadRedial flt).
Proof.
  intros Hsend Hfit Hobs. split.
  - rewrite <- (app_nil_r turns) at 1. rewrite WriteLoop_sending.
    + destruct buffered; reflexivity.
    + exact Hsend.
    + eapply Forall_impl; [exact Hfit|]. intros b (Hb & _). exact Hb.
  - unfold read_stream. cbn [pending].
    rewrite <- (app_nil_r (frames_of (dequeued turns))) at 2.
    apply ReadLoop_frames_then; [exact Hobs | | exact Hfit |].
    + intros i fuel. apply ReadLoop_on_error; [exact Hobs | reflexivity].
    + pose proof (frames_of_length (dequeued turns)). lia.
Qed.

Lemma write_then_read_witness :
  WriteLoop (conf_max 2) true
    [TurnSend false [Byte.x01] [[]; [Byte.x02; Byte.x03]] None;
     TurnSend false [Byte.x04] [] None]
    (mkWriter [] []) []
  = (WriteWaiting,
     mkWriter ([] ++ frames_of [[Byte.x01]; []; [Byte.x02; Byte.x03]; [Byte.x04]])
       [],
     [] ++ frames_of [[Byte.x01]; []; [Byte.x02; Byte.x03]; [Byte.x04]])
  /\ read_stream Host32 (conf_max 2) (fun _ => mkFrameObs false EnqueueSent)
       (mkReader (frames_of [[Byte.x01]; []; [Byte.x02; Byte.x03]; [Byte.x04]])
          ErrEOF)
     = Some ([[Byte.x01]; []; [Byte.x02; Byte.x03]; [Byte.x04]],
             ReadRedial ErrEOF).
Proof.
  apply (write_then_read Host32 (conf_max 2) true
           [TurnSend false [Byte.x01] [[]; [Byte.x02; Byte.x03]] None;
            TurnSend false [Byte.x04] [] None]).
  - repeat constructor.
  - repeat constructor; discriminate.
  - reflexivity.
Defined.

(** X13: a body over [MaxMessageSize] among those dequeued ends the write
    activity: [writeMsg] has been handed the bodies dequeued before it and
    has given the writer their frames, and nothing of the oversize body or
    of the bodies behind it; [write] returns with its deferred [Close],
    starting no recovery, and without a call of [bw.Flush()]. So without a
    write buffer all these frames are on the stream; with one, only the
    frames of the earlier turns, each of which ended in a flush, are there
    for certain, and those of the bodies dequeued in the same turn as the
    oversize one are left in the buffer. *)
Theorem write_oversize_returns (cf : Config) (WriteBufferSize : Z)
    (quiet rest : list write_turn) (is_closed : bool)
    (first : list byte) (more pre post : list (list byte)) (big : list byte)
    (flush : error) (out : list byte) :
  Forall sending quiet ->
  Forall (fun b => oversize cf (len b) = false) (dequeued quiet ++ pre) ->
  first :: more = pre ++ big :: post ->
  oversize cf (len big) = true ->
  WriteLoop cf (connectionWriter WriteBufferSize)
    (quiet ++ TurnSend is_closed first more flush :: rest) (mkWriter out []) out
  = (WriteReturned, mkWriter (out ++ frames_of (dequeued quiet ++ pre)) [],
     if WriteBufferSize >? 0 then out ++ frames_of (dequeued quiet)
     else out ++ frames_of (dequeued quiet ++ pre))
  /\ (forall s env rounds w,
         w_conf w = cf ->
         write WriteBufferSize
           (WriteStream s (mkWriter out [])
              (quiet ++ TurnSend is_closed first more flush :: rest) env
            :: rounds) w
         = (WriteExited,
            [mkWriter (out ++ frames_of (dequeued quiet ++ pre)) []],
            Close w)).
Proof.
  intros Hsend Hin Hsplit Hbig.
  apply Forall_app in Hin as [Hquiet Hpre].
  assert (Hloop :
    WriteLoop cf (connectionWriter WriteBufferSize)
      (quiet ++ TurnSend is_closed first more flush :: rest) (mkWriter out [])
      out
    = (WriteReturned, mkWriter (out ++ frames_of (dequeued quiet ++ pre)) [],
       if WriteBufferSize >? 0 then out ++ frames_of (dequeued quiet)
       else out ++ frames_of (dequeued quiet ++ pre))).
  { rewrite WriteLoop_sending by assumption.
    cbn [WriteLoop]. rewrite Hsplit.
    rewrite write_bodies_oversize by assumption.
    unfold on_stream, connectionWriter, frames_of. cbn [w_out].
    rewrite map_app, concat_app, <- app_assoc. reflexivity. }
  split; [exact Hloop|].
  intros s env rounds w Hcf. cbn [write w_out]. rewrite Hcf, Hloop. reflexivity.
Qed.

Lemma write_oversize_returns_witness :
  WriteLoop (conf_max 2) (connectionWriter 4096)
    ([TurnSend false [Byte.x01] [] None]
     ++ [TurnSend false [Byte.x02]
           [[Byte.x03; Byte.x04; Byte.x05]; [Byte.x06]] None])
    (mkWriter [] []) []
  = (WriteReturned,
     mkWriter ([] ++ frames_of ([[Byte.x01]] ++ [[Byte.x02]])) [],
     [] ++ frames_of [[Byte.x01]]).
Proof.
  apply (write_oversize_returns (conf_max 2) 4096
           [TurnSend false [Byte.x01] [] None] [] false [Byte.x02]
           [[Byte.x03; Byte.x04; Byte.x05]; [Byte.x06]] [[Byte.x02]]
           [[Byte.x06]] [Byte.x03; Byte.x04; Byte.x05] None []).
  - repeat constructor.
  - repeat constructor.
  - reflexivity.
  - reflexivity.
Defined.

(** ** What the activities keep *)

Lemma kept_refl (w : World) : kept w w.
Proof.
  unfold kept. repeat split; auto. exists []. symmetry. apply app_nil_r.
Qed.

Lemma kept_trans (w1 w2 w3 : World) : kept w1 w2 -> kept w2 w3 -> kept w1 w3.
Proof.
  intros (Ha & Hi & Hc & Hcl & Ho & Hr & [e1 Ht])
         (Ha' & Hi' & Hc' & Hcl' & Ho' & Hr' & [e2 Ht']).
  unfold kept. repeat split; try congruence; auto.
  - intros a Hne. rewrite Hr' by congruence. apply Hr, Hne.
  - exists (e1 ++ e2). rewrite Ht', Ht, app_assoc. reflexivity.
Qed.

Lemma kept_step (w w' : World) : op_step w w' -> kept w w'.
Proof.
  intros [e w0|s w0|n w0|w0].
  - unfold kept. repeat split; auto. exists [e]. reflexivity.
  - unfold kept. repeat split; auto. exists []. symmetry. apply app_nil_r.
  - unfold kept. repeat split; auto. exists []. symmetry. apply app_nil_r.
  - destruct (closeo (w_conn w0)) eqn:E.
    + rewrite Close_fired by exact E. apply kept_refl.
    + rewrite Close_fresh by exact E.
      unfold kept, Address, IsIncoming, isClosed, w_conf, pool_delete.
      cbn. repeat split; auto.
      * intros a Hne. apply lookup_delete_ne. congruence.
      * eauto.
Qed.

Lemma evolves_kept (w w' : World) : evolves w w' -> kept w w'.
Proof.
  induction 1 as [w|w1 w2 w3 Hstep _ IH]; [apply kept_refl|].
  eapply kept_trans; [apply kept_step, Hstep | exact IH].
Qed.

Lemma registered_step (ptr : nat) (w w' : World) :
  op_step w w' -> registered ptr w -> registered ptr w'.
Proof.
  intros [e w0|s w0|n w0|w0] [Hagree Hreg]; try (split; assumption).
  destruct (closeo (w_conn w0)) eqn:E.
  - rewrite Close_fired by exact E.
    split; [rewrite E; assumption | assumption].
  - rewrite Close_fresh by exact E. unfold registered, Address, pool_delete.
    cbn. split; [reflexivity | apply lookup_delete_eq].
Qed.

Lemma evolves_registered (ptr : nat) (w w' : World) :
  evolves w w' -> registered ptr w -> registered ptr w'.
Proof.
  induction 1 as [w|w1 w2 w3 Hstep _ IH]; [auto|].
  intros Hreg. apply IH. eapply registered_step; eassumption.
Qed.

Lemma evolves_log (e : event) (w : World) : evolves w (log e w).
Proof. apply rtc_once. apply step_log. Qed.

Lemma evolves_Close (w : World) : evolves w (Close w).
Proof. apply rtc_once. apply step_Close. Qed.

Lemma evolves_then (w1 w2 w3 : World) :
  evolves w1 w2 -> evolves w2 w3 -> evolves w1 w3.
Proof. apply rtc_trans. Qed.

Lemma evolves_triggerDialing k err w : evolves w (triggerDialing k err w).
Proof.
  unfold triggerDialing.
  assert (evolves w (with_conn (set_state ConnStateDialing) w))
    by (apply rtc_once; apply step_state).
  destruct k; [|assumption].
  eapply evolves_then; [eassumption | apply evolves_log].
Qed.

Lemma evolves_triggerReadWrite k s w : evolves w (triggerReadWrite k s w).
Proof.
  assert (Hup : evolves w (updateConnection s w)).
  { unfold updateConnection.
    eapply rtc_l; [apply (step_conn (Some s))|].
    apply rtc_once. apply step_state. }
  unfold triggerReadWrite.
  destruct k; repeat (eapply rtc_r; [|apply step_log]); exact Hup.
Qed.

Lemma evolves_triggerDialingRead env err s w :
  evolves w (triggerDialingRead env err s w).
Proof.
  unfold triggerDialingRead.
  assert (H0 : evolves w (log (EvNetClose s) w)) by apply evolves_log.
  destruct (incoming _).
  - eapply evolves_then; [exact H0 | apply evolves_Close].
  - destruct (other_signalled env);
      [eapply evolves_then; [exact H0 | apply evolves_log]|].
    destruct (second_select env) as [k| |].
    + eapply evolves_then; [exact H0|].
      eapply evolves_then; [apply evolves_log | apply evolves_triggerDialing].
    + eapply evolves_then; [exact H0 | apply evolves_log].
    + exact H0.
Qed.

Lemma evolves_triggerDialingWrite env err s w :
  evolves w (triggerDialingWrite env err s w).
Proof.
  unfold triggerDialingWrite.
  assert (H0 : evolves w (log (EvNetClose s) w)) by apply evolves_log.
  destruct (incoming _).
  - eapply evolves_then; [exact H0 | apply evolves_Close].
  - destruct (other_signalled env);
      [eapply evolves_then; [exact H0 | apply evolves_log]|].
    destruct (second_select env) as [k| |].
    + eapply evolves_then; [exact H0|].
      eapply evolves_then; [apply evolves_log | apply evolves_triggerDialing].
    + eapply evolves_then; [exact H0 | apply evolves_log].
    + exact H0.
Qed.

Lemma evolves_DialLoop h (atts : list attempt) :
  forall diallm tm err w, evolves w (snd (DialLoop h atts diallm tm err w)).
Proof.
  induction atts as [|a atts IH]; intros diallm tm err w; cbn [DialLoop];
    (destruct (diallm =? 0); [apply rtc_refl|]);
    (destruct (on_dial w err); [|apply rtc_refl]).
  - apply rtc_refl.
  - destruct a as [e k|s k].
    + set (w1 := log (EvDialing (Address w)) w).
      assert (H1 : evolves w w1) by apply evolves_log.
      destruct (_ >? 0), k; try exact H1.
      * eapply evolves_then; [exact H1|].
        eapply evolves_then; [apply evolves_log | apply IH].
      * eapply evolves_then; [exact H1 | apply IH].
    + eapply evolves_then; [apply evolves_log | apply evolves_triggerReadWrite].
Qed.

Lemma evolves_TriggerLoop h (rounds : list round) :
  forall diallm w, evolves w (snd (TriggerLoop h rounds diallm w)).
Proof.
  induction rounds as [|[err atts|] rounds IH]; intros diallm w;
    cbn [TriggerLoop]; try apply rtc_refl.
  pose proof (evolves_DialLoop h atts diallm (RedialTimeout (w_conf w)) err w)
    as Hloop.
  destruct (DialLoop h atts diallm (RedialTimeout (w_conf w)) err w)
    as [[r|d|d tm e|d] w1]; cbn [snd] in Hloop; try exact Hloop.
  eapply evolves_then; [exact Hloop | apply IH].
Qed.

Lemma evolves_dial h rounds N w : evolves w (snd (dial h rounds N w)).
Proof.
  unfold dial.
  pose proof (evolves_TriggerLoop h rounds
                (if N =? 0 then int h (N - 1) else N) w) as Hloop.
  destruct (TriggerLoop h rounds _ w) as [[r|d|d tm e|d] w1];
    cbn [snd] in *; try exact Hloop.
  eapply evolves_then; [exact Hloop | apply evolves_Close].
Qed.

Lemma evolves_read h (rounds : list read_round) :
  forall w st q w', read h rounds w = Some (st, q, w') -> evolves w w'.
Proof.
  induction rounds as [|[s r obs env|] rounds IH]; intros w st q w';
    cbn [read].
  - intros [= _ _ <-]. apply rtc_refl.
  - destruct (read_stream h (w_conf w) obs r) as [[q0 [l| |e]]|];
      try discriminate.
    + intros [= _ _ <-]. apply evolves_Close.
    + intros [= _ _ <-]. apply evolves_Close.
    + destruct (read h rounds (triggerDialingRead env (Some e) s w))
        as [[[st1 q1] w1]|] eqn:Hrest; [|discriminate].
      intros [= _ _ <-].
      eapply evolves_then; [apply evolves_triggerDialingRead|].
      eapply IH. exact Hrest.
  - intros [= _ _ <-]. apply evolves_Close.
Qed.

Lemma evolves_write wbs (rounds : list write_round) :
  forall w, evolves w (snd (write wbs rounds w)).
Proof.
  induction rounds as [|[s wr turns env|] rounds IH]; intros w; cbn [write].
  - apply rtc_refl.
  - destruct (WriteLoop (w_conf w) (connectionWriter wbs) turns wr (w_out wr))
      as [[[ |e| | ] wr'] sent].
    + apply evolves_Close.
    + pose proof (IH (triggerDialingWrite env (Some e) s w)) as Hrest.
      destruct (write wbs rounds (triggerDialingWrite env (Some e) s w))
        as [[st outs] w1]. cbn [snd] in *.
      eapply evolves_then; [apply evolves_triggerDialingWrite | exact Hrest].
    + pose proof (IH (log EvRecvReadd w)) as Hrest.
      destruct (write wbs rounds (log EvRecvReadd w)) as [[st outs] w1].
      cbn [snd] in *.
      eapply evolves_then; [apply evolves_log | exact Hrest].
    + apply rtc_refl.
  - apply evolves_Close.
Qed.

(** X7: whatever the dial, read and write activities of a connection meet,
    they leave its address, its direction and the configuration as they
    are, never reopen the channel [closed], keep the [sync.Once] and the
    channel in step, touch no registry entry but the connection's own, and
    only add to the trace; and a connection that is in the registry exactly
    while it is not closed stays so. *)
Theorem activities_keep_connection (h : host) (w : World) :
  (forall rounds N, kept w (snd (dial h rounds N w)))
  /\ (forall rounds st q w', read h rounds w = Some (st, q, w') -> kept w w')
  /\ (forall wbs rounds, kept w (snd (write wbs rounds w)))
  /\ (forall ptr, registered ptr w ->
        (forall rounds N, registered ptr (snd (dial h rounds N w)))
        /\ (forall rounds st q w',
               read h rounds w = Some (st, q, w') -> registered ptr w')
        /\ (forall wbs rounds, registered ptr (snd (write wbs rounds w)))).
Proof.
  split; [|split; [|split]].
  - intros rounds N. apply evolves_kept, evolves_dial.
  - intros rounds st q w' Hrun. eapply evolves_kept, evolves_read, Hrun.
  - intros wbs rounds. apply evolves_kept, evolves_write.
  - intros ptr Hreg. split; [|split].
    + intros rounds N. eapply evolves_registered; [apply evolves_dial | exact Hreg].
    + intros rounds st q w' Hrun.
      eapply evolves_registered; [eapply evolves_read, Hrun | exact Hreg].
    + intros wbs rounds.
      eapply evolves_registered; [apply evolves_write | exact Hreg].
Qed.

Lemma activities_keep_connection_witness :
  registered 0
    (snd (dial Host64 [RoundTrigger None [AttemptFail refused WaitElapsed]] 1
            dialing_world))
  /\ registered 0 (snd (write 0 [WriteSeesClosed] dialing_world)).
Proof.
  destruct (activities_keep_connection Host64 dialing_world)
    as (_ & _ & _ & Hreg).
  destruct (Hreg 0%nat) as (Hdial & _ & Hwrite).
  - split; [reflexivity | apply lookup_insert_eq].
  - split; [apply Hdial | apply Hwrite].
Defined.

(** ** The registry *)

(** X6: [acceptConnection] refuses a remote address that is in the registry
    and leaves the pool as it is; for a new address it yields an incoming,
    connected [Conn] holding the stream and registers it; [createConnection]
    registers an outgoing [Conn] in state dialing, without a stream, under
    its address whether the address was there or not; and [Close] takes the
    address out again, which gives back the registry of before when the
    address was new. *)
Theorem registry_roundtrip (ptr : nat) (a : string) (s : stream) (p : Pool) :
  (forall k q, conns p !! a = Some q -> acceptConnection ptr k a s p = None)
  /\ (forall k, conns p !! a = None ->
        exists w,
          acceptConnection ptr k a s p = Some w
          /\ registered ptr w
          /\ Address w = a /\ IsIncoming w = true
          /\ State w = ConnStateConnected /\ conn (w_conn w) = Some s
          /\ conns (w_pool (Close w)) = conns p)
  /\ (forall k,
        registered ptr (createConnection ptr k a p)
        /\ Address (createConnection ptr k a p) = a
        /\ IsIncoming (createConnection ptr k a p) = false
        /\ State (createConnection ptr k a p) = ConnStateDialing
        /\ conn (w_conn (createConnection ptr k a p)) = None
        /\ conns (w_pool (Close (createConnection ptr k a p)))
           = delete a (conns p)).
Proof.
  split; [|split].
  - intros k q Hq. unfold acceptConnection. rewrite Hq. reflexivity.
  - intros k Hnew. unfold acceptConnection. rewrite Hnew.
    eexists. split; [reflexivity|].
    destruct k; (repeat split; [apply lookup_insert_eq|]);
      (rewrite Close_fresh by reflexivity); cbn;
      apply delete_insert_id; exact Hnew.
  - intros k. destruct k; (repeat split; [apply lookup_insert_eq|]);
      (rewrite Close_fresh by reflexivity); cbn; apply delete_insert_eq.
Qed.

Lemma registry_roundtrip_witness :
  acceptConnection 7 HandReadThenWrite "10.0.0.7:4242" 1%nat
    (w_pool (peer_world (conf_max 0))) = None
  /\ exists w,
       acceptConnection 7 HandReadThenWrite "10.0.0.8:4242" 1%nat
         (w_pool (peer_world (conf_max 0))) = Some w
       /\ registered 7 w
       /\ Address w = "10.0.0.8:4242" /\ IsIncoming w = true
       /\ State w = ConnStateConnected /\ conn (w_conn w) = Some 1%nat
       /\ conns (w_pool (Close w)) = conns (w_pool (peer_world (conf_max 0))).
Proof.
  split.
  - apply (registry_roundtrip 7 "10.0.0.7:4242" 1%nat
             (w_pool (peer_world (conf_max 0)))) with (q := 0%nat).
    apply lookup_insert_eq.
  - apply (registry_roundtrip 7 "10.0.0.8:4242" 1%nat
             (w_pool (peer_world (conf_max 0)))).
    apply lookup_insert_None. split; [apply lookup_empty | discriminate].
Defined.

(** ** Faults on an outgoing connection *)

(** X8: on an outgoing connection [triggerDialingRead] and
    [triggerDialingWrite] close the stream of the fault and never call
    [Close]: the once, the channel [closed], the pool and the current
    stream stay as they are. They send one trigger to the dial activity at
    most, carrying the error of the fault, and the state changes, if at
    all, to dialing; when the other side has signalled before, no trigger is
    sent and the state stays. *)
Theorem outgoing_fault_redials (env : redial_env) (err : error) (s : stream)
    (w : World) :
  incoming (w_conn w) = false ->
  forall w',
    w' = triggerDialingRead env err s w \/ w' = triggerDialingWrite env err s w ->
    closeo (w_conn w') = closeo (w_conn w)
    /\ isClosed w' = isClosed w
    /\ w_pool w' = w_pool w
    /\ conn (w_conn w') = conn (w_conn w)
    /\ (State w' = State w \/ State w' = ConnStateDialing)
    /\ (exists evs,
           w_trace w' = w_trace w ++ EvNetClose s :: evs
           /\ (count is_dial_trigger evs <= 1)%nat
           /\ (forall e, In (EvSendDialtr e) evs -> e = err)
           /\ (other_signalled env = true
               \/ second_select env = RedialRecvOther ->
               count is_dial_trigger evs = 0%nat /\ State w' = State w)).
Proof.
  intros Hout w' Hw'.
  assert (Hcases :
    exists own other,
      (own = EvSendReadd /\ other = EvRecvWrited
       \/ own = EvSendWrited /\ other = EvRecvReadd)
      /\ w' = if other_signalled env then log other (log (EvNetClose s) w)
              else match second_select env with
                   | RedialSendOwn k =>
                       triggerDialing k err (log own (log (EvNetClose s) w))
                   | RedialRecvOther => log other (log (EvNetClose s) w)
                   | RedialClosed => log (EvNetClose s) w
                   end).
  { destruct Hw' as [->| ->].
    - exists EvSendReadd, EvRecvWrited. split; [left; split; reflexivity|].
      unfold triggerDialingRead. cbn [log w_conn]. rewrite Hout. reflexivity.
    - exists EvSendWrited, EvRecvReadd. split; [right; split; reflexivity|].
      unfold triggerDialingWrite. cbn [log w_conn]. rewrite Hout. reflexivity. }
  destruct Hcases as (own & other & Hev & ->).
  assert (Hfin : forall P : Prop,
             (own = EvSendReadd -> other = EvRecvWrited -> P) ->
             (own = EvSendWrited -> other = EvRecvReadd -> P) -> P)
    by (intros P H1 H2; destruct Hev as [[? ?]|[? ?]]; auto).
  clear Hev.
  destruct (other_signalled env); [|destruct (second_select env) as [[|]| |]];
    (repeat split; auto);
    [exists [other] | exists [own; EvSendDialtr err] | exists [own]
     | exists [other] | exists []];
    apply Hfin; intros -> ->; cbn; rewrite <- ?app_assoc;
    (split; [reflexivity|]); (split; [lia|]);
    (split; [intros e He; repeat destruct He as [He|He];
             congruence || discriminate || contradiction|]);
    intros [Hs|Hs]; (discriminate Hs || (split; reflexivity)).
Qed.

Lemma outgoing_fault_redials_witness :
  closeo (w_conn (triggerDialingRead (mkRedialEnv false (RedialSendOwn TriggerSent))
                    (Some ErrEOF) 1%nat
                    (triggerReadWrite HandReadThenWrite 1%nat dialing_world)))
  = false
  /\ isClosed (triggerDialingRead (mkRedialEnv false (RedialSendOwn TriggerSent))
                 (Some ErrEOF) 1%nat
                 (triggerReadWrite HandReadThenWrite 1%nat dialing_world))
     = false.
Proof.
  destruct (outgoing_fault_redials (mkRedialEnv false (RedialSendOwn TriggerSent))
              (Some ErrEOF) 1%nat
              (triggerReadWrite HandReadThenWrite 1%nat dialing_world)
              eq_refl _ (or_introl eq_refl))
    as (Honce & Hclosed & _).
  split; [exact Honce | exact Hclosed].
Defined.

(** ** The dial activity, further *)

Lemma first_counter_nonzero (h : host) (N : Z) :
  (if N =? 0 then int h (N - 1) else N) <> 0.
Proof.
  destruct (Z.eqb_spec N 0) as [->|Hne]; [|exact Hne].
  destruct h; discriminate.
Qed.

Lemma DialLoop_rejected (h : host) (callback : Conn -> error -> error)
    (err : error) (e : goerr) (atts : list attempt) (d tm : Z) (w : World) :
  OnDial (w_conf w) = Some callback ->
  callback (w_conn w) err = Some e ->
  d <> 0 ->
  DialLoop h atts d tm err w = (DialReturned (ExitOnDial e), w).
Proof.
  intros Hcb Hrej Hnz.
  destruct atts; cbn [DialLoop];
    (replace (d =? 0) with false by (symmetry; apply Z.eqb_neq; exact Hnz));
    unfold on_dial; rewrite Hcb, Hrej; reflexivity.
Qed.

(** X10: when the [OnDial] callback rejects the error of a trigger, [dial]
    returns at once, whatever the limit of dialings: no dialing is made,
    nothing is sent to the read and write activities, and the deferred
    [Close] runs. *)
Theorem OnDial_rejection_closes (h : host) (callback : Conn -> error -> error)
    (err : error) (e : goerr) (atts : list attempt) (rounds : list round)
    (N : Z) (w : World) :
  OnDial (w_conf w) = Some callback ->
  callback (w_conn w) err = Some e ->
  dial h (RoundTrigger err atts :: rounds) N w
  = (DialReturned (ExitOnDial e), Close w).
Proof.
  intros Hcb Hrej. unfold dial. cbn [TriggerLoop].
  rewrite (DialLoop_rejected h callback err e) by
    (assumption || apply first_counter_nonzero).
  reflexivity.
Qed.

Lemma OnDial_rejection_closes_witness :
  dial Host64 [RoundTrigger (Some ErrEOF) [AttemptOk 1%nat HandReadThenWrite]] 0
    (mkWorld (mkConn "127.0.0.1:9" None ConnStateDialing false false false)
       (mkPool ∅ None (mkConfig 0 0 0 0 (Some (OnDialFilter (fun _ => false))) false))
       [])
  = (DialReturned (ExitOnDial ErrEOF),
     Close (mkWorld (mkConn "127.0.0.1:9" None ConnStateDialing false false false)
              (mkPool ∅ None
                 (mkConfig 0 0 0 0 (Some (OnDialFilter (fun _ => false))) false))
              [])).
Proof.
  apply OnDial_rejection_closes with (callback := OnDialFilter (fun _ => false)).
  - reflexivity.
  - reflexivity.
Defined.

(** X9: a dialing that succeeds on a connection closed meanwhile, with
    neither the read nor the write activity left to take the stream: [dial]
    stores the stream, sets the state to connected and returns; the state
    stays connected on a closed connection, and the new stream is not
    closed by anyone, for the [Close] deferred by [dial] does nothing a
    second time. *)
Theorem dial_after_Close_leaves_stream_open (h : host) (err : error)
    (s : stream) (N : Z) (rounds : list round) (w : World) :
  closeo (w_conn w) = true ->
  accepting (w_conf w) ->
  exists w',
    dial h (RoundTrigger err [AttemptOk s HandClosed] :: RoundClosed :: rounds)
      N w
    = (DialReturned ExitClosed, w')
    /\ conn (w_conn w') = Some s
    /\ State w' = ConnStateConnected
    /\ isClosed w' = isClosed w
    /\ w_pool w' = w_pool w
    /\ w_trace w' = w_trace w ++ [EvDialing (Address w)].
Proof.
  intros Honce Hacc. unfold dial. cbn [TriggerLoop].
  pose proof (first_counter_nonzero h N) as Hnz.
  set (d := if N =? 0 then int h (N - 1) else N) in *.
  destruct (on_dial_accepting w err Hacc) as [err' Hcb].
  cbn [DialLoop].
  replace (d =? 0) with false by (symmetry; apply Z.eqb_neq; exact Hnz).
  rewrite Hcb. cbn [TriggerLoop].
  eexists. split.
  - rewrite Close_fired by exact Honce. reflexivity.
  - repeat split.
Qed.

Lemma dial_after_Close_leaves_stream_open_witness :
  exists w',
    dial Host64 [RoundTrigger None [AttemptOk 5%nat HandClosed]; RoundClosed] 0
      (Close dialing_world)
    = (DialReturned ExitClosed, w')
    /\ conn (w_conn w') = Some 5%nat
    /\ State w' = ConnStateConnected
    /\ isClosed w' = isClosed (Close dialing_world)
    /\ w_pool w' = w_pool (Close dialing_world)
    /\ w_trace w' = w_trace (Close dialing_world) ++ [EvDialing "127.0.0.1:9"].
Proof.
  apply (dial_after_Close_leaves_stream_open Host64 None 5%nat 0 []
           (Close dialing_world)).
  - reflexivity.
  - exact I.
Defined.

(** ** The write activity on an incoming connection *)







(** ** The schedule of redial timeouts *)

Section Schedule.

Variable cf : Config.
Hypothesis Hmax : 0 <= MaxRedialTimeout cf <= 2 ^ 62.

Lemma redial_backoff_between (tm : Z) :
  0 <= tm ->
  tm <= redial_backoff cf tm <= Z.max tm (MaxRedialTimeout cf).
Proof.
  intros Htm. destruct (Z.lt_ge_cases tm (MaxRedialTimeout cf)) as [Hlt|Hge].
  - rewrite redial_backoff_below by lia.
    destruct (Z.eqb_spec tm 0); unfold Millisecond; lia.
  - rewrite redial_backoff_at_max by lia. lia.
Qed.

Lemma redial_backoff_from_zero (n : nat) :
  Nat.iter (S n) (redial_backoff cf) 0
  = Z.min (100 * Millisecond * 2 ^ Z.of_nat n) (MaxRedialTimeout cf).
Proof.
  induction n as [|n IH].
  - change (Nat.iter 1 (redial_backoff cf) 0) with (redial_backoff cf 0).
    change (2 ^ Z.of_nat 0) with 1. rewrite Z.mul_1_r.
    destruct (Z.eq_dec (MaxRedialTimeout cf) 0) as [Heq|Hne].
    + rewrite redial_backoff_at_max by lia. rewrite Heq. reflexivity.
    + rewrite redial_backoff_below by lia. reflexivity.
  - change (Nat.iter (S (S n)) (redial_backoff cf) 0)
      with (redial_backoff cf (Nat.iter (S n) (redial_backoff cf) 0)).
    rewrite IH.
    replace (Z.of_nat (S n)) with (Z.succ (Z.of_nat n)) by lia.
    rewrite Z.pow_succ_r by lia.
    assert (Hpos : 0 < 100 * Millisecond * 2 ^ Z.of_nat n).
    { assert (0 < 2 ^ Z.of_nat n) by (apply Z.pow_pos_nonneg; lia).
      unfold Millisecond. lia. }
    destruct (Z.lt_ge_cases (100 * Millisecond * 2 ^ Z.of_nat n)
                (MaxRedialTimeout cf)) as [Hlt|Hge].
    + rewrite Z.min_l by lia. rewrite redial_backoff_below by lia.
      replace (100 * Millisecond * 2 ^ Z.of_nat n =? 0) with false
        by (symmetry; apply Z.eqb_neq; lia).
      f_equal. lia.
    + rewrite Z.min_r by lia. rewrite redial_backoff_at_max by lia. lia.
Qed.

Lemma backoffs_iter (k : nat) :
  forall tm,
    backoffs cf tm k
    = map (fun n => Nat.iter (S n) (redial_backoff cf) tm) (seq 0 k).
Proof.
  induction k as [|k IH]; intros tm; [reflexivity|].
  cbn [backoffs seq map]. rewrite IH. f_equal.
  rewrite <- seq_shift, map_map. apply map_ext. intros n.
  symmetry. apply (Nat.iter_succ_r (S n)).
Qed.

End Schedule.

Lemma sleeps_app (t1 t2 : list event) :
  sleeps (t1 ++ t2) = sleeps t1 ++ sleeps t2.
Proof. apply omap_app. Qed.

Lemma sleeps_Close (w : World) : sleeps (w_trace (Close w)) = sleeps (w_trace w).
Proof.
  destruct (Close_trace w) as (evs & -> & Hno). rewrite sleeps_app.
  enough (sleeps evs = []) as -> by apply app_nil_r.
  induction Hno as [|e evs He _ IH]; [reflexivity|].
  destruct e; try discriminate He; exact IH.
Qed.

(** Failing dialings that do not use the counter up: after each of them
    the loop sleeps for the grown timeout, if that is positive. *)
Lemma DialLoop_fails_sleeps (h : host) (errs : list goerr) :
  forall diallm tm err w,
    accepting (w_conf w) ->
    (diallm < 0 /\ min_int h <= diallm - Z.of_nat (length errs) - 1)
    \/ (Z.of_nat (length errs) < diallm <= max_int h) ->
    sleeps (w_trace (snd (DialLoop h (fails errs) diallm tm err w)))
    = sleeps (w_trace w)
      ++ List.filter (fun t => t >? 0) (backoffs (w_conf w) tm (length errs)).
Proof.
  pose proof (int_bits_pos h) as Hbits.
  assert (Hpow : 0 < 2 ^ (int_bits h - 1)) by (apply Z.pow_pos_nonneg; lia).
  induction errs as [|e errs IH]; intros diallm tm err w Hacc Hrange;
    destruct (on_dial_accepting w err Hacc) as [err' Hcb].
  - cbn [fails map DialLoop length backoffs List.filter].
    replace (diallm =? 0) with false
      by (symmetry; apply Z.eqb_neq; cbn in Hrange; lia).
    rewrite Hcb. cbn [snd]. rewrite app_nil_r. reflexivity.
  - cbn [length] in Hrange.
    change (fails (e :: errs)) with (AttemptFail e WaitElapsed :: fails errs).
    rewrite (DialLoop_failure h e (fails errs) diallm tm err err')
      by (assumption || lia).
    rewrite int_id by (unfold min_int, max_int in *; lia).
    destruct (after_failure_same tm w) as (Hc & Hp & _).
    rewrite IH.
    + cbn [length backoffs List.filter].
      replace (w_conf (after_failure tm w)) with (w_conf w)
        by (unfold w_conf; rewrite Hp; reflexivity).
      unfold after_failure.
      change (w_conf (log (EvDialing (Address w)) w)) with (w_conf w).
      destruct (redial_backoff (w_conf w) tm >? 0);
        cbn [log w_trace]; rewrite !sleeps_app; cbn;
        rewrite <- ?app_assoc, ?app_nil_r; reflexivity.
    + unfold w_conf. rewrite Hp. exact Hacc.
    + lia.
Qed.

(** X11: with [0 <= MaxRedialTimeout <= 2^62] ns the timeout never shrinks
    and never passes the larger of its start and [MaxRedialTimeout]; from
    [RedialTimeout = 0] the timeout after the [n+1]-th failed dialing in a
    row is the smaller of [100 ms * 2^n] and [MaxRedialTimeout]; and with
    [MaxRedialTimeout > 0] and no limit of dialings these are the sleeps of
    the dial activity, in order. *)
Theorem redial_schedule (h : host) (errs : list goerr) (err : error)
    (w : World) :
  0 <= MaxRedialTimeout (w_conf w) <= 2 ^ 62 ->
  (forall tm, 0 <= tm ->
     tm <= redial_backoff (w_conf w) tm
     <= Z.max tm (MaxRedialTimeout (w_conf w)))
  /\ (forall n,
        Nat.iter (S n) (redial_backoff (w_conf w)) 0
        = Z.min (100 * Millisecond * 2 ^ Z.of_nat n)
            (MaxRedialTimeout (w_conf w)))
  /\ (accepting (w_conf w) ->
      RedialTimeout (w_conf w) = 0 ->
      0 < MaxRedialTimeout (w_conf w) ->
      Z.of_nat (length errs) < max_int h ->
      sleeps (w_trace (snd (dial h [RoundTrigger err (fails errs)] 0 w)))
      = sleeps (w_trace w)
        ++ map (fun n => Z.min (100 * Millisecond * 2 ^ Z.of_nat n)
                           (MaxRedialTimeout (w_conf w)))
             (seq 0 (length errs))).
Proof.
  intros Hmax. split; [|split].
  - intros tm Htm. apply redial_backoff_between; assumption.
  - intros n. apply redial_backoff_from_zero. exact Hmax.
  - intros Hacc Hzero Hpos Hk.
    pose proof (int_bits_pos h) as Hbits.
    assert (Hpow : 0 < 2 ^ (int_bits h - 1)) by (apply Z.pow_pos_nonneg; lia).
    pose proof (DialLoop_fails_sleeps h errs (0 - 1) 0 err w Hacc) as Hsl.
    destruct (DialLoop_fails_on h errs (0 - 1) 0 err w Hacc)
      as (tm' & err' & w' & Hrun & _).
    { left. unfold min_int, max_int in *. lia. }
    unfold dial. cbn [Z.eqb TriggerLoop].
    rewrite int_id by (unfold min_int, max_int; lia).
    rewrite Hzero. rewrite Hrun in *. cbn [snd] in *.
    rewrite Hsl by (left; unfold min_int, max_int in *; lia).
    f_equal. rewrite backoffs_iter.
    rewrite forallb_filter_id.
    + apply map_ext. intros n. apply redial_backoff_from_zero. exact Hmax.
    + apply forallb_forall. intros t Hin. apply in_map_iff in Hin as (n & <- & _).
      rewrite redial_backoff_from_zero by exact Hmax.
      assert (0 < 2 ^ Z.of_nat n) by (apply Z.pow_pos_nonneg; lia).
      apply Z.gtb_lt. unfold Millisecond. lia.
Qed.

Lemma redial_schedule_witness :
  sleeps (w_trace (snd (dial Host64
                          [RoundTrigger None (fails [refused; refused; refused])]
                          0 (outgoing_world (conf_redial 0 (300 * Millisecond))))))
  = sleeps (w_trace (outgoing_world (conf_redial 0 (300 * Millisecond))))
    ++ map (fun n => Z.min (100 * Millisecond * 2 ^ Z.of_nat n)
                       (MaxRedialTimeout
                          (w_conf (outgoing_world
                                     (conf_redial 0 (300 * Millisecond))))))
         (seq 0 3).
Proof.
  apply (redial_schedule Host64 [refused; refused; refused] None
           (outgoing_world (conf_redial 0 (300 * Millisecond)))).
  - split; discriminate.
  - exact I.
  - reflexivity.
  - reflexivity.
  - reflexivity.
Defined.

(** ** Package [cxoutils]: [RemoveRootObjects] *)

(** A root that is missing below the last ones stops the cleaning of its
    head there: the roots under the gap stay, and the call returns
    [data.ErrNotFound]. *)
Example remove_roots_gap :
  RemoveRootObjects solo_Feeds solo_Heads solo_LastRootSeq solo_DelRoot
    [0; 1; 3; 4] 1
  = ([0; 1; 4], Some ErrNotFound).
Proof. reflexivity. Qed.

Example remove_roots_keep_two :
  RemoveRootObjects toy_Feeds toy_Heads toy_LastRootSeq toy_DelRoot
    [0; 1; 2; 3; 4] 2
  = ([3; 4], Some ErrNotFound).
Proof. reflexivity. Qed.

Section CxoutilsFacts.

Context {St PubKey : Type}.
Variable Feeds : St -> list PubKey.
Variable Heads : St -> PubKey -> list Z + dberr.
Variable LastRootSeq : St -> PubKey -> Z -> Z + dberr.
Variable DelRoot : St -> PubKey -> Z -> Z -> St * option dberr.

Lemma uint64_id (x : Z) : 0 <= x < 2 ^ 64 -> uint64 x = x.
Proof. intros Hx. apply Z.mod_small. exact Hx. Qed.

Lemma del_down_succeeding (pk : PubKey) (nonce : Z) :
  forall m c,
    deletions_succeed DelRoot m c pk nonce ->
    exists c',
      del_down DelRoot m c pk nonce = (c', DownDone)
      /\ snd (DelRoot c' pk nonce 0) = None
      /\ fst (DelRoot c' pk nonce 0) = deleted_down DelRoot m c pk nonce.
Proof.
  induction m as [|m IH]; intros c.
  - intros Hok. exists c. repeat split. exact Hok.
  - cbn [del_down deleted_down deletions_succeed]. intros [Hdel Hrest].
    destruct (DelRoot c pk nonce (Z.of_nat (S m))) as [c1 e].
    cbn [snd fst] in *. subst e. apply IH. exact Hrest.
Qed.

Lemma HeadLoop_app (k : Z) (pk : PubKey) (hs rest : list Z) :
  forall c err c1 err1,
    HeadLoop LastRootSeq DelRoot k hs c pk err = (c1, Continue err1) ->
    HeadLoop LastRootSeq DelRoot k (hs ++ rest) c pk err
    = HeadLoop LastRootSeq DelRoot k rest c1 pk err1.
Proof.
  induction hs as [|n hs IH]; intros c err c1 err1; cbn [HeadLoop app].
  - intros [= <- <-]. reflexivity.
  - destruct (head_turn LastRootSeq DelRoot k c pk n) as [c2 [err2|e]];
      [apply IH | discriminate].
Qed.

Lemma FeedLoop_app (k : Z) (fs rest : list PubKey) :
  forall c err c1 err1,
    FeedLoop Heads LastRootSeq DelRoot k fs c err = (c1, Continue err1) ->
    FeedLoop Heads LastRootSeq DelRoot k (fs ++ rest) c err
    = FeedLoop Heads LastRootSeq DelRoot k rest c1 err1.
Proof.
  induction fs as [|pk fs IH]; intros c err c1 err1; cbn [FeedLoop app].
  - intros [= <- <-]. reflexivity.
  - destruct (Heads c pk) as [heads|e]; [|discriminate].
    destruct (HeadLoop LastRootSeq DelRoot k heads c pk None)
      as [c2 [err2|e]]; [apply IH | discriminate].
Qed.

(** X15: for a head whose last root has a seq [s] above [keepLast >= 0],
    when the deletions made for it succeed, [RemoveRootObjects] deletes
    the roots [s - keepLast], [s - keepLast - 1], ..., 1, 0 of the head, in
    this order, and nothing else of it: the last [keepLast] roots stay (none
    for [keepLast = 0]); for a container with this head alone the call
    returns no error. *)
Theorem RemoveRootObjects_keeps_last (c : St) (pk : PubKey) (nonce s k : Z) :
  LastRootSeq c pk nonce = inl s ->
  0 <= k < s ->
  s < 2 ^ 64 ->
  deletions_succeed DelRoot (Z.to_nat (s - k)) c pk nonce ->
  head_turn LastRootSeq DelRoot k c pk nonce
  = (deleted_down DelRoot (Z.to_nat (s - k)) c pk nonce, Continue None)
  /\ (Feeds c = [pk] -> Heads c pk = inl [nonce] ->
      RemoveRootObjects Feeds Heads LastRootSeq DelRoot c k
      = (deleted_down DelRoot (Z.to_nat (s - k)) c pk nonce, None)).
Proof.
  intros Hseq Hk Hs Hok.
  assert (Hturn : head_turn LastRootSeq DelRoot k c pk nonce
                  = (deleted_down DelRoot (Z.to_nat (s - k)) c pk nonce,
                     Continue None)).
  { unfold head_turn. rewrite Hseq.
    rewrite (uint64_id k) by lia.
    replace (s <=? k) with false by (symmetry; apply Z.leb_gt; lia).
    rewrite uint64_id by lia.
    destruct (del_down_succeeding pk nonce (Z.to_nat (s - k)) c Hok)
      as (c1 & -> & Hzero & Hlast).
    destruct (DelRoot c1 pk nonce 0) as [c2 e]. cbn [fst snd] in *.
    subst. reflexivity. }
  split; [exact Hturn|].
  intros Hfeeds Hheads. unfold RemoveRootObjects.
  rewrite Hfeeds. cbn [FeedLoop]. rewrite Hheads. cbn [HeadLoop].
  rewrite Hturn. reflexivity.
Qed.

Lemma uint64_negative (k : Z) : - 2 ^ 63 <= k < 0 -> 2 ^ 63 <= uint64 k.
Proof.
  intros Hk. unfold uint64, wrap_unsigned.
  replace k with (k + 2 ^ 64 + (-1) * 2 ^ 64) by lia.
  rewrite Z.mod_add by lia. rewrite Z.mod_small; lia.
Qed.

Lemma RemoveRootObjects_below (c : St) (k : Z) :
  (forall pk nonce s, LastRootSeq c pk nonce = inl s -> s <= uint64 k) ->
  fst (RemoveRootObjects Feeds Heads LastRootSeq DelRoot c k) = c.
Proof.
  intros Hlow.
  assert (Hturn : forall pk nonce,
             exists x, head_turn LastRootSeq DelRoot k c pk nonce
                       = (c, Continue x)).
  { intros pk nonce. unfold head_turn.
    destruct (LastRootSeq c pk nonce) as [s|e] eqn:Hs; [|eauto].
    apply Hlow in Hs.
    replace (s <=? uint64 k) with true by (symmetry; apply Z.leb_le; exact Hs).
    eauto. }
  assert (Hheads : forall pk heads err,
             exists x, HeadLoop LastRootSeq DelRoot k heads c pk err
                       = (c, Continue x)).
  { intros pk heads. induction heads as [|n heads IH]; intros err; [eauto|].
    cbn [HeadLoop]. destruct (Hturn pk n) as [x ->]. apply IH. }
  assert (Hfeeds : forall feeds err,
             exists x, FeedLoop Heads LastRootSeq DelRoot k feeds c err
                       = (c, x)).
  { intros feeds. induction feeds as [|pk feeds IH]; intros err; [eauto|].
    cbn [FeedLoop]. destruct (Heads c pk) as [heads|e]; [|eauto].
    destruct (Hheads pk heads None) as [x ->]. apply IH. }
  unfold RemoveRootObjects. destruct (Hfeeds (Feeds c) None) as [[x|e] ->];
    reflexivity.
Qed.

(** X16: when the last root of every head has a seq of [uint64(keepLast)]
    at most, [RemoveRootObjects] deletes nothing (a head with the roots 0 to
    [keepLast] keeps all [keepLast + 1] of them); a negative [keepLast]
    converts to [2^63] or more, so it deletes nothing as long as the seqs
    are below [2^63]. *)
Theorem RemoveRootObjects_idle (c : St) (k : Z) :
  ((forall pk nonce s, LastRootSeq c pk nonce = inl s -> s <= uint64 k) ->
   fst (RemoveRootObjects Feeds Heads LastRootSeq DelRoot c k) = c)
  /\ (- 2 ^ 63 <= k < 0 ->
      (forall pk nonce s, LastRootSeq c pk nonce = inl s -> s < 2 ^ 63) ->
      fst (RemoveRootObjects Feeds Heads LastRootSeq DelRoot c k) = c).
Proof.
  split; [apply RemoveRootObjects_below|].
  intros Hk Hsmall. apply RemoveRootObjects_below.
  intros pk nonce s Hs. apply Hsmall in Hs.
  pose proof (uint64_negative k Hk). lia.
Qed.

(** X17: the error [RemoveRootObjects] returns is the one its variable
    [err] holds when the loops end: when the last head of the last feed
    has no last root, the error of that lookup is returned, although the
    code passes it over as "not a real error"; when a head that deletes
    nothing comes after it, nil is returned instead. *)
Theorem RemoveRootObjects_last_error (c c1 c2 : St) (k : Z)
    (fs : list PubKey) (pk : PubKey) (hs : list Z) (nonce : Z)
    (err1 err2 : option dberr) (e : dberr) :
  Feeds c = fs ++ [pk] ->
  FeedLoop Heads LastRootSeq DelRoot k fs c None = (c1, Continue err1) ->
  HeadLoop LastRootSeq DelRoot k hs c1 pk None = (c2, Continue err2) ->
  LastRootSeq c2 pk nonce = inr e ->
  (Heads c1 pk = inl (hs ++ [nonce]) ->
   RemoveRootObjects Feeds Heads LastRootSeq DelRoot c k = (c2, Some e))
  /\ (forall nonce' s,
         Heads c1 pk = inl (hs ++ [nonce; nonce']) ->
         LastRootSeq c2 pk nonce' = inl s -> s <= uint64 k ->
         RemoveRootObjects Feeds Heads LastRootSeq DelRoot c k = (c2, None)).
Proof.
  intros Hfeeds Hfs Hhs Hlast. split.
  - intros Hheads. unfold RemoveRootObjects.
    rewrite Hfeeds, (FeedLoop_app k fs [pk] c None c1 err1 Hfs).
    cbn [FeedLoop]. rewrite Hheads.
    rewrite (HeadLoop_app k pk hs [nonce] c1 None c2 err2 Hhs).
    cbn [HeadLoop]. unfold head_turn. rewrite Hlast. reflexivity.
  - intros nonce' s Hheads Hs Hlow. unfold RemoveRootObjects.
    rewrite Hfeeds, (FeedLoop_app k fs [pk] c None c1 err1 Hfs).
    cbn [FeedLoop]. rewrite Hheads.
    rewrite (HeadLoop_app k pk hs [nonce; nonce'] c1 None c2 err2 Hhs).
    cbn [HeadLoop]. unfold head_turn. rewrite Hlast, Hs.
    replace (s <=? uint64 k) with true by (symmetry; apply Z.leb_le; exact Hlow).
    reflexivity.
Qed.

End CxoutilsFacts.

Lemma RemoveRootObjects_keeps_last_witness :
  head_turn solo_LastRootSeq solo_DelRoot 2 [0; 1; 2; 3; 4] tt 0
  = ([3; 4], Continue None)
  /\ RemoveRootObjects solo_Feeds solo_Heads solo_LastRootSeq solo_DelRoot
       [0; 1; 2; 3; 4] 2
     = ([3; 4], None).
Proof.
  destruct (RemoveRootObjects_keeps_last solo_Feeds solo_Heads solo_LastRootSeq
              solo_DelRoot [0; 1; 2; 3; 4] tt 0 4 2)
    as [Hturn Hall].
  - reflexivity.
  - split; [discriminate | reflexivity].
  - reflexivity.
  - repeat split.
  - split; [exact Hturn | apply Hall; reflexivity].
Defined.

Lemma RemoveRootObjects_idle_witness :
  fst (RemoveRootObjects toy_Feeds toy_Heads toy_LastRootSeq toy_DelRoot
         [0; 1; 2] 2)
  = [0; 1; 2].
Proof.
  destruct (RemoveRootObjects_idle toy_Feeds toy_Heads toy_LastRootSeq
              toy_DelRoot [0; 1; 2] 2) as [Hbelow _].
  apply Hbelow.
  intros pk nonce s. unfold toy_LastRootSeq.
  destruct (nonce =? 0); [|discriminate].
  intros [= <-]. discriminate.
Defined.

Lemma RemoveRootObjects_last_error_witness :
  RemoveRootObjects toy_Feeds toy_Heads toy_LastRootSeq toy_DelRoot [0; 1; 2] 2
  = ([0; 1; 2], Some ErrNotFound).
Proof.
  apply (RemoveRootObjects_last_error toy_Feeds toy_Heads toy_LastRootSeq
           toy_DelRoot [0; 1; 2] [0; 1; 2] [0; 1; 2] 2 [] tt [0] 1
           None None ErrNotFound).
  - reflexivity.
  - reflexivity.
  - reflexivity.
  - reflexivity.
  - reflexivity.
Defined.

(** ** The dial activity with the filter of package [node] *)

(** X18: with [OnDialFilter] as the [OnDial] callback (what [NewConfig] of
    package [node] sets), a trigger whose error the filter gives back,
    [io.EOF] or a reset by the peer that is not temporary, makes [dial]
    return and close the connection without dialing; after any other
    trigger, the first one (nil) among them, the filter lets the dialing be
    made. *)
Theorem dial_with_OnDialFilter (h : host) (Temporary : goerr -> bool)
    (err : error) (atts : list attempt) (rounds : list round) (N : Z)
    (w : World) :
  OnDial (w_conf w) = Some (OnDialFilter Temporary) ->
  (forall e, dial_filter_by_cases Temporary err = Some e ->
     dial h (RoundTrigger err atts :: rounds) N w
     = (DialReturned (ExitOnDial e), Close w))
  /\ (dial_filter_by_cases Temporary err = None ->
      on_dial w err = inl None
      /\ exists d,
           dial h [RoundTrigger err []] N w
           = (DialDialing d (RedialTimeout (w_conf w)) None, w)).
Proof.
  intros Hcb. split.
  - intros e He. unfold dial. cbn [TriggerLoop].
    rewrite (DialLoop_rejected h (OnDialFilter Temporary) err e).
    + reflexivity.
    + exact Hcb.
    + rewrite OnDialFilter_by_cases. exact He.
    + apply first_counter_nonzero.
  - intros Hnil.
    assert (Hon : on_dial w err = inl None).
    { unfold on_dial. rewrite Hcb, OnDialFilter_by_cases, Hnil. reflexivity. }
    split; [exact Hon|].
    unfold dial. cbn [TriggerLoop DialLoop].
    pose proof (first_counter_nonzero h N) as Hnz.
    set (d := if N =? 0 then int h (N - 1) else N) in *.
    replace (d =? 0) with false by (symmetry; apply Z.eqb_neq; exact Hnz).
    rewrite Hon. eauto.
Qed.

Lemma dial_with_OnDialFilter_witness :
  dial Host64 [RoundTrigger (Some ErrEOF) [AttemptOk 1%nat HandReadThenWrite]] 0
    (mkWorld (mkConn "127.0.0.1:9" None ConnStateDialing false false false)
       (mkPool ∅ None (mkConfig 0 0 0 0 (Some (OnDialFilter (fun _ => false))) false))
       [])
  = (DialReturned (ExitOnDial ErrEOF),
     Close (mkWorld (mkConn "127.0.0.1:9" None ConnStateDialing false false false)
              (mkPool ∅ None
                 (mkConfig 0 0 0 0 (Some (OnDialFilter (fun _ => false))) false))
              [])).
Proof.
  destruct (dial_with_OnDialFilter Host64 (fun _ => false) (Some ErrEOF)
              [AttemptOk 1%nat HandReadThenWrite] [] 0
              (mkWorld (mkConn "127.0.0.1:9" None ConnStateDialing false false false)
                 (mkPool ∅ None
                    (mkConfig 0 0 0 0 (Some (OnDialFilter (fun _ => false))) false))
                 [])
              eq_refl) as [Hreject _].
  apply Hreject. reflexivity.
Defined.

(** ** A fault and the redial after it *)



(** ** The limit of dialings over the life of a connection *)

Lemma last_stream_some (ss : list (error * stream * handoff_case)) :
  forall c,
    (ss <> [] \/ exists s, c = Some s) ->
    exists s, fold_left (fun _ x => Some (snd (fst x))) ss c = Some s.
Proof.
  induction ss as [|x ss IH]; intros c Hc; cbn [fold_left].
  - destruct Hc as [Hne|Hs]; [contradiction | exact Hs].
  - apply IH. right. eauto.
Qed.

Lemma TriggerLoop_connects (h : host)
    (ss : list (error * stream * handoff_case)) (rest : list round) :
  forall diallm w,
    accepting (w_conf w) ->
    Z.of_nat (length ss) <= diallm <= max_int h ->
    exists w',
      TriggerLoop h (connects ss ++ rest) diallm w
      = TriggerLoop h rest (diallm - Z.of_nat (length ss)) w'
      /\ w_pool w' = w_pool w
      /\ dial_attempts w' = (dial_attempts w + length ss)%nat
      /\ closeo (w_conn w') = closeo (w_conn w)
      /\ Address w' = Address w
      /\ conn (w_conn w')
         = fold_left (fun _ x => Some (snd (fst x))) ss (conn (w_conn w)).
Proof.
  pose proof (int_bits_pos h) as Hbits.
  assert (Hpow : 0 < 2 ^ (int_bits h - 1)) by (apply Z.pow_pos_nonneg; lia).
  induction ss as [|[[err s] k] ss IH]; intros diallm w Hacc Hrange.
  - exists w. cbn [connects map app length fold_left]. rewrite Z.sub_0_r.
    repeat split. lia.
  - cbn [length] in Hrange.
    destruct (on_dial_accepting w err Hacc) as [err' Hcb].
    cbn [connects map app TriggerLoop DialLoop fst snd].
    replace (diallm =? 0) with false by (symmetry; apply Z.eqb_neq; lia).
    rewrite Hcb. rewrite int_id by (unfold min_int, max_int in *; lia).
    set (w1 := triggerReadWrite k s (log (EvDialing (Address w)) w)).
    assert (Hpool : w_pool w1 = w_pool w) by (unfold w1; destruct k; reflexivity).
    assert (Hatt : dial_attempts w1 = S (dial_attempts w)).
    { unfold w1. rewrite dial_attempts_triggerReadWrite, dial_attempts_log.
      cbn. lia. }
    assert (Honce : closeo (w_conn w1) = closeo (w_conn w))
      by (unfold w1; destruct k; reflexivity).
    assert (Haddr : Address w1 = Address w)
      by (unfold w1; destruct k; reflexivity).
    assert (Hconn : conn (w_conn w1) = Some s)
      by (unfold w1; destruct k; reflexivity).
    destruct (IH (diallm - 1) w1)
      as (w' & Hrun & Hpool' & Hatt' & Honce' & Haddr' & Hconn').
    { unfold w_conf. rewrite Hpool. exact Hacc. }
    { lia. }
    exists w'. fold (connects ss). rewrite Hrun. cbn [length fold_left fst snd].
    repeat split; try congruence; try lia.
    f_equal. lia.
Qed.

(** X20: the limit counts the dialings of the whole life of a connection,
    the successful ones too: after [DialsLimit = N > 0] rounds in each of
    which the dialing succeeded, the next trigger makes [dial] return on
    the limit without dialing, and its deferred [Close] closes the
    connection: if it was not closed before, the channel [closed] is closed
    now, the state is [ConnStateClosed] and the address is out of the
    registry. *)
Theorem dials_limit_counts_successes (h : host)
    (ss : list (error * stream * handoff_case)) (err : error)
    (atts : list attempt) (rounds : list round) (N : Z) (w : World) :
  accepting (w_conf w) ->
  0 < N <= max_int h ->
  Z.of_nat (length ss) = N ->
  exists w',
    dial h (connects ss ++ RoundTrigger err atts :: rounds) N w
    = (DialReturned ExitLimit, w')
    /\ dial_attempts w' = (dial_attempts w + length ss)%nat
    /\ closeo (w_conn w') = true
    /\ (closeo (w_conn w) = false ->
        isClosed w' = true
        /\ State w' = ConnStateClosed
        /\ conns (w_pool w') !! Address w = None
        /\ In EvCloseChan (w_trace w')).
Proof.
  intros Hacc HN Hlen. unfold dial.
  replace (N =? 0) with false by (symmetry; apply Z.eqb_neq; lia).
  destruct (TriggerLoop_connects h ss (RoundTrigger err atts :: rounds) N w Hacc)
    as (w1 & Hrun & _ & Hatt & Honce & Haddr & Hconn); [lia|].
  rewrite Hrun. replace (N - Z.of_nat (length ss)) with 0 by lia.
  assert (Hret : TriggerLoop h (RoundTrigger err atts :: rounds) 0 w1
                 = (DialReturned ExitLimit, w1))
    by (cbn [TriggerLoop]; destruct atts; reflexivity).
  rewrite Hret. exists (Close w1).
  split; [reflexivity|].
  split; [rewrite dial_attempts_Close; exact Hatt|].
  split; [apply closeo_Close|].
  intros Hfresh. rewrite <- Honce in Hfresh.
  destruct (Close_closes w1 Hfresh) as (Hcl & Hreg & Hev).
  destruct (last_stream_some ss (conn (w_conn w))) as [s Hs].
  { left. intros ->. cbn [length] in Hlen. lia. }
  repeat split.
  - exact Hcl.
  - apply (Close_with_stream w1 s Hfresh). rewrite Hconn. exact Hs.
  - rewrite <- Haddr. exact Hreg.
  - exact Hev.
Qed.

Lemma dials_limit_counts_successes_witness :
  exists w',
    dial Host64
      (connects [(None, 1%nat, HandReadThenWrite)]
       ++ RoundTrigger (Some ErrEOF) [AttemptOk 2%nat HandReadThenWrite] :: [])
      1 dialing_world
    = (DialReturned ExitLimit, w')
    /\ dial_attempts w'
       = (dial_attempts dialing_world
          + length [(None : error, 1%nat, HandReadThenWrite)])%nat
    /\ closeo (w_conn w') = true
    /\ (closeo (w_conn dialing_world) = false ->
        isClosed w' = true
        /\ State w' = ConnStateClosed
        /\ conns (w_pool w') !! Address dialing_world = None
        /\ In EvCloseChan (w_trace w')).
Proof.
  apply (dials_limit_counts_successes Host64 [(None, 1%nat, HandReadThenWrite)]
           (Some ErrEOF) [AttemptOk 2%nat HandReadThenWrite] [] 1 dialing_world).
  - exact I.
  - split; [reflexivity | discriminate].
  - reflexivity.
Defined.

(** ** The limit of dialings, dialing after dialing *)

(** X21: dialings that fail one after the other, [k] of them. With
    [DialsLimit = N > 0], for [k < N] all are made and the connection is
    left as it is; for [k >= N] exactly [N] are made: the turn of the loop
    after the [N]-th finds the counter at zero and [dial] returns, and its
    deferred [Close] closes the connection (the channel [closed] is closed
    and the address is out of the registry); and whatever [dial] meets, it
    makes [N] dialings at most. So [DialsLimit = 1] gives one dialing. With
    [DialsLimit = 0] all [k] are made as long as [k] is below [2^bits - 1],
    [bits] the width of the host's [int]. *)
Theorem dials_limit_exact (h : host) (errs : list goerr) (err : error)
    (w : World) :
  accepting (w_conf w) ->
  (Z.of_nat (length errs) < 2 ^ int_bits h - 1 ->
   exists tm err' w',
     dial h [RoundTrigger err (fails errs)] 0 w
     = (DialDialing (int h (- 2 - Z.of_nat (length errs))) tm err', w')
     /\ dial_attempts w' = (dial_attempts w + length errs)%nat
     /\ w_conn w' = w_conn w /\ w_pool w' = w_pool w)
  /\ (forall N, 0 < N <= max_int h ->
        (Z.of_nat (length errs) < N ->
         exists tm err' w',
           dial h [RoundTrigger err (fails errs)] N w
           = (DialDialing (N - Z.of_nat (length errs) - 1) tm err', w')
           /\ dial_attempts w' = (dial_attempts w + length errs)%nat
           /\ w_conn w' = w_conn w /\ w_pool w' = w_pool w)
        /\ (N <= Z.of_nat (length errs) ->
            exists w',
              dial h [RoundTrigger err (fails errs)] N w
              = (DialReturned ExitLimit, w')
              /\ dial_attempts w' = (dial_attempts w + Z.to_nat N)%nat
              /\ closeo (w_conn w') = true
              /\ (closeo (w_conn w) = false ->
                  isClosed w' = true
                  /\ conns (w_pool w') !! Address w = None
                  /\ In EvCloseChan (w_trace w')))
        /\ (forall rounds st w',
               dial h rounds N w = (st, w') ->
               (dial_attempts w' <= dial_attempts w + Z.to_nat N)%nat)).
Proof.
  intros Hacc.
  pose proof (int_bits_pos h) as Hbits.
  assert (Hpow : 0 < 2 ^ (int_bits h - 1)) by (apply Z.pow_pos_nonneg; lia).
  split; [|intros N HN; split; [|split]].
  - intros Hk. unfold dial. cbn [Z.eqb TriggerLoop].
    rewrite (int_id h (0 - 1)) by (unfold min_int, max_int; lia).
    destruct (DialLoop_fails_counter h errs (0 - 1) (RedialTimeout (w_conf w))
                err w Hacc) as (tm & err1 & w' & Hrun & Hc & Hp & Hn).
    { unfold min_int, max_int. lia. }
    { intros j Hj. apply counter_from_minus_one. lia. }
    rewrite Hrun. cbn [DialLoop].
    replace (int h (0 - 1 - Z.of_nat (length errs)) =? 0) with false
      by (symmetry; apply Z.eqb_neq, counter_from_minus_one; lia).
    destruct (on_dial_accepting w' err1) as [err' Hcb].
    { unfold w_conf. rewrite Hp. exact Hacc. }
    rewrite Hcb, int_minus_idemp.
    replace (0 - 1 - Z.of_nat (length errs) - 1)
      with (- 2 - Z.of_nat (length errs)) by lia.
    exists tm, err', w'. repeat split; assumption.
  - intros Hk. unfold dial.
    replace (N =? 0) with false by (symmetry; apply Z.eqb_neq; lia).
    cbn [TriggerLoop].
    destruct (DialLoop_fails_on h errs N (RedialTimeout (w_conf w)) err w Hacc)
      as (tm & err' & w' & Hrun & Hc & Hp & Hn).
    { right. lia. }
    rewrite Hrun. exists tm, err', w'. repeat split; assumption.
  - intros Hk. unfold dial.
    replace (N =? 0) with false by (symmetry; apply Z.eqb_neq; lia).
    cbn [TriggerLoop].
    destruct (DialLoop_fails_out h errs N (RedialTimeout (w_conf w)) err w Hacc)
      as (w1 & Hrun & Hc & Hp & Hn); [lia | lia |].
    rewrite Hrun. exists (Close w1).
    split; [reflexivity|].
    split; [rewrite dial_attempts_Close; exact Hn|].
    split; [apply closeo_Close|].
    intros Hfresh.
    destruct (Close_closes w1) as (Hcl & Hreg & Hev).
    { rewrite Hc. exact Hfresh. }
    repeat split; [exact Hcl | | exact Hev].
    replace (Address w) with (Address w1) by (unfold Address; rewrite Hc; reflexivity).
    exact Hreg.
  - intros rounds st w' Hrun. apply (dial_bound h rounds N w st w' HN Hrun).
Qed.

Lemma dials_limit_exact_witness :
  (exists tm err' w',
      dial Host64 [RoundTrigger None (fails [refused; refused])] 0
        (outgoing_world (conf_dials 0))
      = (DialDialing (int Host64 (- 2 - 2)) tm err', w')
      /\ dial_attempts w' = (dial_attempts (outgoing_world (conf_dials 0)) + 2)%nat
      /\ w_conn w' = w_conn (outgoing_world (conf_dials 0))
      /\ w_pool w' = w_pool (outgoing_world (conf_dials 0)))
  /\ (exists w',
         dial Host64 [RoundTrigger None (fails [refused; refused])] 1
           dialing_world
         = (DialReturned ExitLimit, w')
         /\ dial_attempts w' = (dial_attempts dialing_world + 1)%nat
         /\ closeo (w_conn w') = true
         /\ (closeo (w_conn dialing_world) = false ->
             isClosed w' = true
             /\ conns (w_pool w') !! Address dialing_world = None
             /\ In EvCloseChan (w_trace w'))).
Proof.
  split.
  - destruct (dials_limit_exact Host64 [refused; refused] None
                (outgoing_world (conf_dials 0)) I) as [Hzero _].
    apply Hzero. reflexivity.
  - destruct (dials_limit_exact Host64 [refused; refused] None dialing_world I)
      as [_ Hlimit].
    destruct (Hlimit 1) as (_ & Hout & _).
    + split; [reflexivity | discriminate].
    + apply Hout. discriminate.
Defined.
